(** * wadl-dumper: path resolution and templating, verified against main.go

    A shallow embedding of [main.go] (package [main] of 0x303/wadl-dumper):
    [parsePlaceholders], [errorExit], [replaceNth], [replacePlaceholders] and
    [main], together with the fragments of the Go standard library they call
    ([strings.Index], [strings.SplitN], [strings.Contains],
    [strings.HasPrefix], string slicing, and
    [regexp.ReplaceAllStringFunc] for the one pattern the program compiles).

    Go strings are byte sequences: they are modelled by [string] (a list of
    8-bit [ascii]).  Go's [int] is the 64-bit signed integer: it is modelled
    by [Z] with the wrap-around of every addition written out ([add64]).
    The map [opt.placeholders] is a [gmap string string]. *)

From Stdlib Require Import ZArith Lia Bool Ascii String.
From stdpp Require Import base option list gmap strings.

Local Open Scope Z_scope.

(** ** Go values *)

Module Go.

(** *** Strings *)

Definition len (s : string) : Z := Z.of_nat (String.length s).

Fixpoint take (n : nat) (s : string) : string :=
  match n, s with
  | S k, String c t => String c (take k t)
  | _, _ => EmptyString
  end.

Fixpoint drop (n : nat) (s : string) : string :=
  match n, s with
  | S k, String _ t => drop k t
  | _, _ => s
  end.

(** The outcome of a Go computation that may panic.  [OutOfFuel] is only
    produced by a loop model whose iteration budget is exhausted. *)
Inductive outcome (A : Type) : Type :=
| Ret (a : A)
| Panic
| OutOfFuel.
Arguments Ret {A} a.
Arguments Panic {A}.
Arguments OutOfFuel {A}.

(** Sequencing: a panic (or an exhausted budget) aborts what follows. *)
Global Instance outcome_bind : MBind outcome := fun A B k x =>
  match x with
  | Ret a => k a
  | Panic => Panic
  | OutOfFuel => OutOfFuel
  end.

(** [s[lo:]]: panics unless [0 <= lo <= len(s)]. *)
Definition slice_from (s : string) (lo : Z) : outcome string :=
  if (0 <=? lo) && (lo <=? len s) then Ret (drop (Z.to_nat lo) s) else Panic.

(** [s[:hi]]: panics unless [0 <= hi <= len(s)]. *)
Definition slice_to (s : string) (hi : Z) : outcome string :=
  if (0 <=? hi) && (hi <=? len s) then Ret (take (Z.to_nat hi) s) else Panic.

(** *** 64-bit signed integers *)

Definition min_int : Z := - 2 ^ 63.
Definition max_int : Z := 2 ^ 63 - 1.

Definition is_int (z : Z) : Prop := min_int <= z <= max_int.

(** Two's complement wrap-around of a mathematical integer. *)
Definition wrap64 (z : Z) : Z := (z + 2 ^ 63) mod 2 ^ 64 - 2 ^ 63.

Definition add64 (a b : Z) : Z := wrap64 (a + b).

(** *** Package [strings] *)

(** [strings.HasPrefix(s, prefix)]. *)
Definition HasPrefix (s pre : string) : bool := String.prefix pre s.

(** [strings.Index(s, substr)]: the offset of the first instance of
    [substr] in [s], or [-1]. *)
Fixpoint Index (s substr : string) : Z :=
  if String.prefix substr s then 0
  else match s with
       | EmptyString => -1
       | String _ t =>
           let r := Index t substr in
           if r <? 0 then -1 else r + 1
       end.

(** [strings.Contains(s, substr)] is [Index(s, substr) >= 0]. *)
Definition Contains (s substr : string) : bool := 0 <=? Index s substr.

(** [strings.SplitN(s, sep, 2)] for a one-byte separator: the text before
    the first separator and the text after it, or [s] alone when the
    separator does not occur. *)
Definition SplitN2 (s sep : string) : list string :=
  let m := Index s sep in
  if m <? 0 then [s]
  else [take (Z.to_nat m) s; drop (Z.to_nat m + String.length sep) s].

End Go.

Import Go.

(** ** [replaceNth] (main.go, lines 88-104) *)

(** One pass of the loop [for m := 1; m <= n; m++] starting in the state
    [(m, i)]; [fuel] bounds the number of iterations still allowed. *)
Fixpoint replaceNth_loop (fuel : nat) (s old new : string) (n m i : Z)
  : outcome string :=
  match fuel with
  | O => OutOfFuel
  | S fuel' =>
      if m <=? n then
        t ← slice_from s i;
        let x := Index t old in
        if x <? 0 then Ret s
        else
          let i := add64 i x in
          if m =? n then
            a ← slice_to s i;
            b ← slice_from s (add64 i (len old));
            Ret (a +:+ new +:+ b)
          else
            replaceNth_loop fuel' s old new n (add64 m 1) (add64 i (len old))
      else Ret s
  end.

(** The loop runs at most [n] times, so [n + 1] iterations are allowed. *)
Definition replaceNth (s old new : string) (n : Z) : outcome string :=
  replaceNth_loop (S (Z.to_nat n)) s old new n 1 0.

(** ** Package [regexp], for the pattern [\{([^{}]+)\}] *)

Module Regexp.

Definition lbrace : ascii := "{"%char.
Definition rbrace : ascii := "}"%char.

Definition is_brace (c : ascii) : bool :=
  Ascii.eqb c lbrace || Ascii.eqb c rbrace.

(** The greedy [[^{}]+]: the number of leading bytes that are no brace.
    Both braces are ASCII, so a byte of a multi-byte rune never is one. *)
Fixpoint name_span (s : string) : nat :=
  match s with
  | String c t => if is_brace c then O else S (name_span t)
  | EmptyString => O
  end.

(** The length of the match of the pattern anchored at the start of [s]:
    an opening brace, a non-empty run of non-brace bytes, a closing brace.
    The run can only end at a brace, so there is no backtracking. *)
Definition match_here (s : string) : option nat :=
  match s with
  | String c t =>
      if Ascii.eqb c lbrace then
        let k := name_span t in
        match k, drop k t with
        | S _, String d _ => if Ascii.eqb d rbrace then Some (S (S k)) else None
        | _, _ => None
        end
      else None
  | EmptyString => None
  end.

(** The scan of [Regexp.replaceAll]: at each offset the leftmost match is
    looked for; unmatched bytes are copied, a match is replaced by the
    callback's value and the scan resumes after it.  [skip] counts the
    bytes of the current match that are still to be passed over. *)
Fixpoint replaceAll (repl : string -> string) (skip : nat) (src : string)
  : string :=
  match src with
  | EmptyString => EmptyString
  | String c t =>
      match skip with
      | S k => replaceAll repl k t
      | O =>
          match match_here src with
          | Some n => repl (take n src) +:+ replaceAll repl (Nat.pred n) t
          | None => String c (replaceAll repl O t)
          end
      end
  end.

(** [re.ReplaceAllStringFunc(src, repl)]. *)
Definition ReplaceAllStringFunc (src : string) (repl : string -> string)
  : string :=
  replaceAll repl O src.

End Regexp.

(** ** The program state *)

(** [type options struct] (main.go, lines 25-30). *)
Record options : Type := {
  baseURL : string;
  input : string;
  replace : string;
  showBase : bool;
  placeholders : gmap string string;
  placeholderArgs : list string
}.

Definition set_placeholders (m : gmap string string) (o : options) : options :=
  {| baseURL := baseURL o; input := input o; replace := replace o;
     showBase := showBase o; placeholders := m;
     placeholderArgs := placeholderArgs o |}.

Definition set_baseURL (b : string) (o : options) : options :=
  {| baseURL := b; input := input o; replace := replace o;
     showBase := showBase o; placeholders := placeholders o;
     placeholderArgs := placeholderArgs o |}.

Definition set_showBase (b : bool) (o : options) : options :=
  {| baseURL := baseURL o; input := input o; replace := replace o;
     showBase := b; placeholders := placeholders o;
     placeholderArgs := placeholderArgs o |}.

(** What [init] and [flag.Parse] leave in [opt]: the flag values, an empty
    map and an empty base URL. *)
Definition parsed_flags (i r : string) (b : bool) (args : list string)
  : options :=
  {| baseURL := EmptyString; input := i; replace := r; showBase := b;
     placeholders := ∅; placeholderArgs := args |}.

(** ** [parsePlaceholders] (main.go, lines 72-80) *)

(** The body of the loop, for one argument [p]. *)
Definition parsePlaceholder (opt : options) (p : string) : options :=
  match SplitN2 p "=" with
  | [name; value] => set_placeholders (<[name := value]> (placeholders opt)) opt
  | _ => opt
  end.

Definition parsePlaceholders (opt : options) : options :=
  foldl parsePlaceholder opt (placeholderArgs opt).

(** ** [replacePlaceholders] (main.go, lines 108-132) *)

(** The callback handed to [ReplaceAllStringFunc].  [name] is
    [match[1 : len(match)-1]]; the callback only ever receives a match of the
    pattern, which has at least three bytes, so the slice is in bounds. *)
Definition placeholder_value (opt : options) (match_ : string) : string :=
  let name := drop 1 (take (String.length match_ - 1) match_) in
  match placeholders opt !! name with
  | Some value => value
  | None =>
      if negb (String.eqb (replace opt) EmptyString) then replace opt
      else match_
  end.

Definition replacePlaceholders (opt : options) (path : string) : string :=
  Regexp.ReplaceAllStringFunc path (placeholder_value opt).

(** ** The process: standard streams and termination *)

Record Streams : Type := { stdout : string; stderr : string }.

(** How a run ends: [os.Exit(code)] (a return from [main] exits with 0), an
    unrecovered panic, or an exhausted loop budget of the model. *)
Inductive termination : Type :=
| Exited (code : Z)
| Panicked
| Diverged.

Inductive step (A : Type) : Type :=
| Continue (a : A)
| Stop (t : termination).
Arguments Continue {A} a.
Arguments Stop {A} t.

Definition Proc (A : Type) : Type := Streams -> Streams * step A.

Global Instance Proc_ret : MRet Proc := fun A a σ => (σ, Continue a).

Global Instance Proc_bind : MBind Proc := fun A B k c σ =>
  match c σ with
  | (σ', Continue a) => k a σ'
  | (σ', Stop t) => (σ', Stop t)
  end.

(** [fmt.Fprint(os.Stderr, text)] and [fmt.Printf] on standard output. *)
Definition Fprint_stderr (text : string) : Proc unit := fun σ =>
  ({| stdout := stdout σ; stderr := stderr σ +:+ text |}, Continue tt).

Definition Print_stdout (text : string) : Proc unit := fun σ =>
  ({| stdout := stdout σ +:+ text; stderr := stderr σ |}, Continue tt).

(** [os.Exit(code)] never returns. *)
Definition os_Exit {A} (code : Z) : Proc A := fun σ => (σ, Stop (Exited code)).

(** A pure Go computation inside the process: a panic ends the run. *)
Definition run {A} (x : outcome A) : Proc A := fun σ =>
  match x with
  | Ret a => (σ, Continue a)
  | Panic => (σ, Stop Panicked)
  | OutOfFuel => (σ, Stop Diverged)
  end.

Definition newline : string := String (ascii_of_nat 10) EmptyString.

(** ** [errorExit] (main.go, lines 82-86) *)

Definition errorExit {A} (message : string) : Proc A :=
  let err := "Error! " +:+ message +:+ newline in
  _ ← Fprint_stderr err;
  os_Exit 1.

(** ** The XML collaborator (package [xmlquery]) *)

(** A loaded document, seen through the three queries [main] makes: the text
    of the first [//application/@xmlns] node and of the first
    [//resources/@base] node ([None] when [FindOne] returns nil), and the
    texts of the [//resource/@path] nodes in the order [Find] yields them. *)
Record Document : Type := {
  application_xmlns : option string;
  resources_base : option string;
  resource_paths : list string
}.

(** The outside world: [xmlquery.LoadURL], [os.Open] and [xmlquery.Parse].
    A result of [None] is Go's nil (the error value is dropped by [main],
    except for [os.Open]). *)
Record World : Type := {
  File : Type;
  LoadURL : string -> option Document;
  Open : string -> option File;
  Parse : File -> option Document
}.

(** ** [main] (main.go, lines 134-184) *)

(** The body of the loop over the [//resource/@path] nodes (lines 173-182). *)
Definition emit_path (opt : options) (paths : string) : Proc unit :=
  let path := baseURL opt +:+ paths in
  let path := replacePlaceholders opt path in
  path ← (if negb (String.eqb (baseURL opt) EmptyString)
          then run (replaceNth path "//" "/" 2)
          else mret path);
  Print_stdout (path +:+ newline).

Fixpoint emit_paths (opt : options) (nodes : list string) : Proc unit :=
  match nodes with
  | [] => mret tt
  | paths :: rest => _ ← emit_path opt paths; emit_paths opt rest
  end.

(** Lines 160-183: the namespace check, the base URL and the loop. *)
Definition dump (opt : options) (wadl : Document) : Proc unit :=
  let xmlns := application_xmlns wadl in
  _ ← (match xmlns with
       | Some text =>
           if negb (Contains text "wadl.dev.java.net")
           then errorExit "Not a WADL file."
           else mret tt
       | None => errorExit "Not a WADL file."
       end);
  let base := resources_base wadl in
  let opt :=
    match base with
    | Some text => if showBase opt then set_baseURL text opt
                   else set_baseURL EmptyString opt
    | None => set_baseURL EmptyString opt
    end in
  emit_paths opt (resource_paths wadl).

(** Lines 145-154: the document is fetched or read. *)
Definition load (w : World) (opt : options) : Proc (option Document) :=
  if HasPrefix (input opt) "http" then mret (LoadURL w (input opt))
  else
    match Open w (input opt) with
    | None => errorExit ("Can't open '" +:+ input opt +:+ "' file.")
    | Some f => mret (Parse w f)
    end.

Definition main_body (w : World) (opt : options) : Proc unit :=
  let opt := parsePlaceholders opt in
  _ ← (if String.eqb (input opt) EmptyString
       then errorExit "Flag -i is required, use -h flag for help."
       else mret tt);
  wadl ← load w opt;
  match wadl with
  | None => errorExit "Can't parse WADL file."
  | Some wadl => dump opt wadl
  end.

(** A run of the program: both streams start empty, and returning from
    [main] exits with status 0. *)
Definition main (w : World) (opt : options) : Streams * termination :=
  match main_body w opt {| stdout := EmptyString; stderr := EmptyString |} with
  | (σ, Continue _) => (σ, Exited 0)
  | (σ, Stop t) => (σ, t)
  end.

(** ** The specification's vocabulary

    Definitions that follow the wording of the specification, to be compared
    with the program above. *)

Module Spec.

(** [sub] occurs in [s] as a substring. *)
Definition occurs (sub s : string) : Prop :=
  exists a b : string, s = a +:+ sub +:+ b.

(** The offsets of the occurrences of [needle] that a left-to-right scan
    of [s] counts when it resumes immediately after each matched
    substring.  [pos] is the offset of the head of [s]; [skip] counts the
    bytes of the last match that are still to be passed over. *)
Fixpoint occurrences (needle : string) (skip pos : nat) (s : string)
  : list nat :=
  match s with
  | EmptyString => []
  | String _ t =>
      match skip with
      | S k => occurrences needle k (S pos) t
      | O =>
          if String.prefix needle s
          then pos :: occurrences needle (Nat.pred (String.length needle)) (S pos) t
          else occurrences needle O (S pos) t
      end
  end.

Definition separator : string := "//".

(** [needle] stands in [s] at the offset [i]. *)
Definition occurs_at (needle s : string) (i : nat) : Prop :=
  String.prefix needle (drop i s) = true.

(** [i] is the offset of the first occurrence of [needle] at or after the
    offset [from]. *)
Definition first_from (needle s : string) (from i : nat) : Prop :=
  (from <= i)%nat /\ occurs_at needle s i /\
  forall i' : nat, (from <= i' < i)%nat -> ~ occurs_at needle s i'.

(** [k] is the offset of the second occurrence of the separator: the first
    one found when the scan resumes right after the first occurrence. *)
Definition second_separator (s : string) (k : nat) : Prop :=
  exists j : nat,
    first_from separator s O j /\
    first_from separator s (j + String.length separator) k.

(** The second-occurrence collapse rule: the second counted occurrence of
    the two-byte separator, if there is one, becomes a single slash. *)
Definition collapse_second (s : string) : string :=
  match occurrences separator O O s with
  | _ :: k :: _ => take k s +:+ "/" +:+ drop (k + 2) s
  | _ => s
  end.

(** A placeholder name: one or more bytes, none of them a brace. *)
Fixpoint brace_free (name : string) : Prop :=
  match name with
  | EmptyString => True
  | String c t => c <> Regexp.lbrace /\ c <> Regexp.rbrace /\ brace_free t
  end.

Definition valid_name (name : string) : Prop :=
  name <> EmptyString /\ brace_free name.

(** The token [{name}], braces included. *)
Definition token (name : string) : string :=
  String Regexp.lbrace (name +:+ String Regexp.rbrace EmptyString).

(** [m] is a match of the pattern: a token with a valid name. *)
Definition is_token (m : string) : Prop :=
  exists name : string, valid_name name /\ m = token name.

(** The match list of [s]: offset and length of every match of the
    pattern, each offset of [s] being tried in turn. *)
Fixpoint matches_from (pos : nat) (s : string) : list (nat * nat) :=
  match s with
  | EmptyString => []
  | String _ t =>
      match Regexp.match_here s with
      | Some n => (pos, n) :: matches_from (S pos) t
      | None => matches_from (S pos) t
      end
  end.

Definition match_list (s : string) : list (nat * nat) := matches_from O s.

(** The text of [s] from offset [pos] on, each listed match replaced by
    what [repl] gives for it; everything is read off the original [s]. *)
Fixpoint splice (repl : string -> string) (s : string) (pos : nat)
  (ms : list (nat * nat)) : string :=
  match ms with
  | [] => drop pos s
  | (i, n) :: ms' =>
      take (i - pos) (drop pos s) +:+ repl (take n (drop i s))
      +:+ splice repl s (i + n) ms'
  end.

(** The matches are listed left to right and do not overlap. *)
Fixpoint apart (pos : nat) (ms : list (nat * nat)) : Prop :=
  match ms with
  | [] => True
  | (i, n) :: ms' => (pos <= i)%nat /\ apart (i + n) ms'
  end.

(** The Placeholder Resolver: explicit value, else the default
    replacement when it is not empty, else the token itself. *)
Definition resolve (opt : options) (name : string) : string :=
  match placeholders opt !! name with
  | Some value => value
  | None =>
      match replace opt with
      | EmptyString => token name
      | String _ _ => replace opt
      end
  end.

Definition eq_sign : string := "=".

(** [p] cut at its first [=]: the name before it and the value after it. *)
Fixpoint cut (p : string) : option (string * string) :=
  match p with
  | EmptyString => None
  | String c t =>
      if Ascii.eqb c "="%char then Some (EmptyString, t)
      else
        match cut t with
        | Some (name, value) => Some (String c name, value)
        | None => None
        end
  end.

(** The value the arguments give to [name]: that of the last argument
    whose name part is [name]; arguments without [=] bind nothing. *)
Fixpoint last_binding (name : string) (args : list string) : option string :=
  match args with
  | [] => None
  | p :: rest =>
      match last_binding name rest with
      | Some value => Some value
      | None =>
          match cut p with
          | Some (n, value) => if String.eqb n name then Some value else None
          | None => None
          end
      end
  end.

(** The Path Composer: the literal concatenation, with the collapse rule
    applied when the base URL is not empty. *)
Definition path_composer (base rel : string) : string :=
  match base with
  | EmptyString => base +:+ rel
  | String _ _ => collapse_second (base +:+ rel)
  end.

(** "Path Composer then Template Renderer". *)
Definition composed_then_rendered (opt : options) (rel : string) : string :=
  replacePlaceholders opt (path_composer (baseURL opt) rel).

(** Output lines: each followed by a newline. *)
Fixpoint lines (l : list string) : string :=
  match l with
  | [] => EmptyString
  | x :: rest => x +:+ newline +:+ lines rest
  end.

Definition marker : string := "wadl.dev.java.net".

(** The document carries no WADL namespace marker. *)
Definition lacks_marker (d : Document) : Prop :=
  match application_xmlns d with
  | None => True
  | Some text => ~ occurs marker text
  end.

Definition has_marker (d : Document) : Prop :=
  exists text : string, application_xmlns d = Some text /\ occurs marker text.

End Spec.

(** ** Auxiliary functions

    Views of the program's scans on natural numbers, used to state what the
    loops compute. *)

(** The offset of the first instance of [old] in [s], if any: the value of
    [strings.Index] without its [-1] convention. *)
Fixpoint find (old s : string) : option nat :=
  if String.prefix old s then Some O
  else match s with
       | EmptyString => None
       | String _ t => S <$> find old t
       end.

(** The offset in [s] of the [k]-th instance of [old] (counted from 1) met
    by a search that resumes right after each instance found. *)
Fixpoint nth_offset (k : nat) (old s : string) : option nat :=
  match k with
  | O => None
  | S k' =>
      match find old s with
      | None => None
      | Some x =>
          match k' with
          | O => Some x
          | S _ =>
              (fun r => (x + String.length old + r)%nat)
                <$> nth_offset k' old (drop (x + String.length old) s)
          end
      end
  end.

(** [s] with the instance of [old] at the offset [at_] replaced by [new];
    [s] itself when there is no offset. *)
Definition replaced (s old new : string) (at_ : option nat) : string :=
  match at_ with
  | Some i => take i s +:+ new +:+ drop (i + String.length old) s
  | None => s
  end.

(** The streams after [text] has been written to standard output. *)
Definition wrote (σ : Streams) (text : string) : Streams :=
  {| stdout := stdout σ +:+ text; stderr := stderr σ |}.

(** The world hands the document [d] to [main] for the input [name]: it is
    fetched when the name starts with [http], read from the file otherwise. *)
Definition delivers (w : World) (name : string) (d : Document) : Prop :=
  if HasPrefix name "http" then LoadURL w name = Some d
  else exists f : File w, Open w name = Some f /\ Parse w f = Some d.

(** Two option values that render every path alike: they differ at most in
    the value mapped to the empty name. *)
Definition same_values (o1 o2 : options) : Prop :=
  baseURL o1 = baseURL o2 /\ input o1 = input o2 /\
  replace o1 = replace o2 /\ showBase o1 = showBase o2 /\
  forall name : string,
    name <> EmptyString -> placeholders o1 !! name = placeholders o2 !! name.

(** ** Sample inputs *)

Module Sample.

(** A world in which every local file opens and parses to [d]. *)
Definition local_world (d : option Document) : World :=
  {| File := unit;
     LoadURL := fun _ => None;
     Open := fun _ => Some tt;
     Parse := fun _ => d |}.

Definition wadl (base : option string) (paths : list string) : Document :=
  {| application_xmlns := Some "http://wadl.dev.java.net/2009/02";
     resources_base := base;
     resource_paths := paths |}.

Definition not_wadl : Document :=
  {| application_xmlns := Some "http://www.w3.org/1999/xhtml";
     resources_base := Some "http://h.tld/";
     resource_paths := ["/a"] |}.

Definition no_output : Streams :=
  {| stdout := EmptyString; stderr := EmptyString |}.

End Sample.

(** ** [placeholderFlag] (main.go, lines 13-23) *)

(** [func (p *placeholderFlag) Set(value string) error]: the new contents of
    [*p] and the error returned ([None] is Go's nil). *)
Definition placeholderFlag_Set (p : list string) (value : string)
  : list string * option string :=
  (p ++ [value], None).

(** The calls [Set(v1)], ..., [Set(vn)] that the flag package makes for the
    occurrences of [-p] on the command line, in their order; the first error
    would stop the parse. *)
Fixpoint placeholderFlag_Sets (p : list string) (values : list string)
  : list string * option string :=
  match values with
  | [] => (p, None)
  | v :: rest =>
      match placeholderFlag_Set p v with
      | (p', None) => placeholderFlag_Sets p' rest
      | (p', Some err) => (p', Some err)
      end
  end.

(** ** Further vocabulary *)

(** The line [errorExit] writes for [message]. *)
Definition error_line (message : string) : string :=
  "Error! " +:+ message +:+ newline.

(** The byte [c] occurs in [s]. *)
Definition has_byte (c : ascii) (s : string) : Prop :=
  exists a b : string, s = a +:+ String c b.

(** The world [w] with another [LoadURL]. *)
Definition with_LoadURL (fetch : string -> option Document) (w : World) : World :=
  {| File := File w; LoadURL := fetch; Open := Open w; Parse := Parse w |}.

(** * Properties *)

(** ** Strings *)

Section StringFacts.

Implicit Types (s t a b : string) (c : ascii) (n k : nat).

Lemma app_cons c a b : String c a +:+ b = String c (a +:+ b).
Proof. reflexivity. Qed.

Lemma app_nil_l s : EmptyString +:+ s = s.
Proof. reflexivity. Qed.

Lemma app_nil_r s : s +:+ EmptyString = s.
Proof. induction s as [|c s IH]; [done|]. by rewrite app_cons, IH. Qed.

Lemma app_assoc a b t : (a +:+ b) +:+ t = a +:+ (b +:+ t).
Proof. induction a as [|c a IH]; [done|]. by rewrite !app_cons, IH. Qed.

Lemma length_app a b :
  String.length (a +:+ b) = (String.length a + String.length b)%nat.
Proof. induction a as [|c a IH]; [done|]. simpl. by rewrite IH. Qed.

Lemma take_0 s : take 0 s = EmptyString.
Proof. by destruct s. Qed.

Lemma drop_0 s : drop 0 s = s.
Proof. by destruct s. Qed.

Lemma take_drop n s : take n s +:+ drop n s = s.
Proof.
  revert s. induction n as [|n IH]; intros [|c s]; simpl; try done.
  by rewrite ?app_cons, IH.
Qed.

Lemma length_take n s : String.length (take n s) = Nat.min n (String.length s).
Proof. revert s. induction n as [|n IH]; intros [|c s]; simpl; auto. Qed.

Lemma length_drop n s : String.length (drop n s) = (String.length s - n)%nat.
Proof. revert s. induction n as [|n IH]; intros [|c s]; simpl; auto. Qed.

Lemma take_all n s : (String.length s <= n)%nat -> take n s = s.
Proof.
  revert s. induction n as [|n IH]; intros [|c s] H; simpl in *; try done; try lia.
  f_equal. apply IH. lia.
Qed.

Lemma drop_all n s : (String.length s <= n)%nat -> drop n s = EmptyString.
Proof.
  revert s. induction n as [|n IH]; intros [|c s] H; simpl in *; try done; try lia.
  apply IH. lia.
Qed.

Lemma drop_drop n k s : drop n (drop k s) = drop (k + n) s.
Proof.
  revert s. induction k as [|k IH]; intros s.
  - by rewrite drop_0.
  - destruct s as [|c s]; simpl; [by destruct n|]. apply IH.
Qed.

Lemma take_app_length a b : take (String.length a) (a +:+ b) = a.
Proof. induction a as [|c a IH]; [done|]. simpl. by rewrite IH. Qed.

Lemma drop_app_length a b : drop (String.length a) (a +:+ b) = b.
Proof. induction a as [|c a IH]; [apply drop_0|]. by simpl. Qed.

Lemma take_app_le n a b :
  (n <= String.length a)%nat -> take n (a +:+ b) = take n a.
Proof.
  revert a. induction n as [|n IH]; intros a H.
  - by rewrite !take_0.
  - destruct a as [|c a]; simpl in *; [lia|].
    simpl. f_equal. apply IH. lia.
Qed.

Lemma drop_app_le n a b :
  (n <= String.length a)%nat -> drop n (a +:+ b) = drop n a +:+ b.
Proof.
  revert a. induction n as [|n IH]; intros a H.
  - by rewrite !drop_0.
  - destruct a as [|c a]; simpl in *; [lia|].
    simpl. apply IH. lia.
Qed.

Lemma drop_app_ge n a b :
  (String.length a <= n)%nat ->
  drop n (a +:+ b) = drop (n - String.length a) b.
Proof.
  revert n. induction a as [|c a IH]; intros n H; simpl in *.
  - by rewrite Nat.sub_0_r.
  - destruct n as [|n]; [lia|]. simpl. apply IH. lia.
Qed.

Lemma take_take n k s : take n (take k s) = take (Nat.min n k) s.
Proof.
  revert k s. induction n as [|n IH]; intros [|k] [|c s]; simpl; try done.
  by rewrite IH.
Qed.

Lemma take_S_drop n s c t :
  drop n s = String c t -> take (S n) s = take n s +:+ String c EmptyString.
Proof.
  revert s. induction n as [|n IH]; intros [|d s] H; simpl in *; try done.
  - by simplify_eq.
  - rewrite app_cons. f_equal. by apply IH.
Qed.

Lemma drop_S n s c t : drop n s = String c t -> drop (S n) s = t.
Proof.
  revert s. induction n as [|n IH]; intros [|d s] H; simpl in *; try done.
  - by simplify_eq.
  - by apply IH.
Qed.

(** [String.prefix] decides "is a prefix of". *)
Lemma prefix_spec a s : String.prefix a s = true <-> exists b, s = a +:+ b.
Proof.
  revert s. induction a as [|c a IH]; intros s; simpl.
  - destruct s; split; eauto.
  - destruct s as [|d s]; simpl.
    + split; [done|]. by intros [b Hb].
    + destruct (ascii_dec c d) as [->|Hne].
      * rewrite IH. split; intros [b Hb]; exists b.
        -- by rewrite app_cons, Hb.
        -- rewrite app_cons in Hb. by simplify_eq.
      * split; [done|]. intros [b Hb]. rewrite app_cons in Hb. by simplify_eq.
Qed.

Lemma prefix_nil s : String.prefix EmptyString s = true.
Proof. by destruct s. Qed.

Lemma prefix_cons c a d s :
  String.prefix (String c a) (String d s) = Ascii.eqb c d && String.prefix a s.
Proof.
  simpl. destruct (ascii_dec c d), (Ascii.eqb_spec c d); done.
Qed.

Lemma prefix_app a b : String.prefix a (a +:+ b) = true.
Proof. apply prefix_spec. eauto. Qed.

Lemma prefix_length a s :
  String.prefix a s = true -> (String.length a <= String.length s)%nat.
Proof. intros [b ->]%prefix_spec. rewrite length_app. lia. Qed.

Lemma prefix_take a s :
  String.prefix a s = true -> take (String.length a) s = a.
Proof. intros [b ->]%prefix_spec. apply take_app_length. Qed.

End StringFacts.

#[local] Arguments String.prefix : simpl never.

(** ** 64-bit integers *)

Lemma wrap64_id z : is_int z -> wrap64 z = z.
Proof.
  unfold is_int, min_int, max_int, wrap64. intros H.
  rewrite Z.mod_small; lia.
Qed.

Lemma add64_exact a b : is_int (a + b) -> add64 a b = a + b.
Proof. apply wrap64_id. Qed.

Lemma len_nonneg s : 0 <= len s.
Proof. unfold len. lia. Qed.

(** ** [strings.Index] *)

Section IndexFacts.

Implicit Types (s old a b : string) (x : nat).

Lemma Index_find s old :
  Index s old = match find old s with Some x => Z.of_nat x | None => -1 end.
Proof.
  induction s as [|c s IH]; simpl.
  - by destruct (String.prefix old EmptyString).
  - destruct (String.prefix old (String c s)); [done|].
    rewrite IH. destruct (find old s) as [x|]; simpl; [|done].
    destruct (Z.ltb_spec (Z.of_nat x) 0); lia.
Qed.

Lemma find_Some old s x :
  find old s = Some x -> String.prefix old (drop x s) = true.
Proof.
  revert x. induction s as [|c s IH]; intros x; simpl.
  - destruct (String.prefix old EmptyString) eqn:E; [|done].
    intros [= <-]. by rewrite drop_0.
  - destruct (String.prefix old (String c s)) eqn:E.
    + by intros [= <-].
    + destruct (find old s) as [y|]; simpl; [|done].
      intros [= <-]. simpl. by apply IH.
Qed.

Lemma find_bound old s x :
  find old s = Some x -> (x + String.length old <= String.length s)%nat.
Proof.
  revert x. induction s as [|c s IH]; intros x; simpl.
  - destruct (String.prefix old EmptyString) eqn:E; [|done].
    intros [= <-]. apply prefix_length in E. simpl in *. lia.
  - destruct (String.prefix old (String c s)) eqn:E.
    + intros [= <-]. apply prefix_length in E. simpl in *. lia.
    + destruct (find old s) as [y|]; simpl; [|done].
      intros [= <-]. specialize (IH y eq_refl). lia.
Qed.

Lemma find_None old s a b : find old s = None -> s <> a +:+ old +:+ b.
Proof.
  revert a. induction s as [|c s IH]; intros a; simpl.
  - destruct (String.prefix old EmptyString) eqn:E; [done|].
    intros _ H. destruct a; [|done]. rewrite app_nil_l in H.
    rewrite H, prefix_app in E. done.
  - destruct (String.prefix old (String c s)) eqn:E; [done|].
    destruct (find old s) as [y|] eqn:F; simpl; [done|].
    intros _ H. destruct a as [|d a].
    + rewrite app_nil_l in H. rewrite H, prefix_app in E. done.
    + rewrite app_cons in H. simplify_eq. by eapply IH.
Qed.

Lemma find_occurs old s x :
  find old s = Some x ->
  s = take x s +:+ old +:+ drop (x + String.length old) s.
Proof.
  intros H. pose proof (find_Some _ _ _ H) as [b Hb]%prefix_spec.
  rewrite <- drop_drop, Hb, drop_app_length, <- Hb.
  by rewrite take_drop.
Qed.

Lemma find_Some_first old s x i :
  find old s = Some x -> (i < x)%nat -> String.prefix old (drop i s) = false.
Proof.
  revert x i. induction s as [|c s IH]; intros x i; simpl.
  - destruct (String.prefix old EmptyString); [|done]. intros [= <-]. lia.
  - destruct (String.prefix old (String c s)) eqn:E; [intros [= <-]; lia|].
    destruct (find old s) as [y|]; simpl; [|done]. intros [= <-] Hi.
    destruct i as [|i]; [by rewrite drop_0|]. simpl. apply (IH y); [done|lia].
Qed.

Lemma find_None_all old s i :
  find old s = None -> String.prefix old (drop i s) = false.
Proof.
  revert i. induction s as [|c s IH]; intros i; simpl.
  - destruct (String.prefix old EmptyString) eqn:E; [done|]. by destruct i.
  - destruct (String.prefix old (String c s)) eqn:E; [done|].
    destruct (find old s) as [y|]; simpl; [done|]. intros _.
    destruct i as [|i]; [by rewrite drop_0|]. simpl. by apply IH.
Qed.

(** A search from the offset [from] finds the first occurrence from there. *)
Lemma find_first_from old s from x :
  find old (drop from s) = Some x ->
  Spec.first_from old s from (from + x).
Proof.
  intros F. split; [lia|]. split.
  - unfold Spec.occurs_at. rewrite <- drop_drop. by apply find_Some.
  - intros i' Hi' H. unfold Spec.occurs_at in H.
    replace i' with (from + (i' - from))%nat in H by lia.
    rewrite <- drop_drop in H.
    rewrite (find_Some_first _ _ _ _ F) in H; [done|lia].
Qed.

Lemma find_None_from old s from i :
  find old (drop from s) = None -> (from <= i)%nat ->
  ~ Spec.occurs_at old s i.
Proof.
  intros F Hi H. unfold Spec.occurs_at in H.
  replace i with (from + (i - from))%nat in H by lia.
  rewrite <- drop_drop in H. by rewrite (find_None_all _ _ _ F) in H.
Qed.

Lemma first_from_unique old s from i j :
  Spec.first_from old s from i -> Spec.first_from old s from j -> i = j.
Proof.
  intros (Hi & Oi & Mi) (Hj & Oj & Mj).
  destruct (Nat.lt_trichotomy i j) as [H|[H|H]]; [|done|].
  - destruct (Mj i); [lia|done].
  - destruct (Mi j); [lia|done].
Qed.

(** [strings.Contains] decides "occurs as a substring". *)
Lemma Contains_spec s sub : Contains s sub = true <-> Spec.occurs sub s.
Proof.
  unfold Contains, Spec.occurs. rewrite Index_find.
  destruct (find sub s) as [x|] eqn:F.
  - split; [intros _|intros _; apply Z.leb_le; lia].
    eexists _, _. by apply find_occurs.
  - split; [done|]. intros (a & b & H). by eapply find_None in H.
Qed.

End IndexFacts.

(** ** [replaceNth] *)

Section ReplaceNth.

Variables s old new : string.
Hypothesis s_fits : len s <= max_int.

Lemma slice_from_ok i :
  0 <= i <= len s -> slice_from s i = Ret (drop (Z.to_nat i) s).
Proof.
  intros H. unfold slice_from.
  destruct (Z.leb_spec 0 i), (Z.leb_spec i (len s)); simpl; (done || lia).
Qed.

Lemma slice_to_ok i :
  0 <= i <= len s -> slice_to s i = Ret (take (Z.to_nat i) s).
Proof.
  intros H. unfold slice_to.
  destruct (Z.leb_spec 0 i), (Z.leb_spec i (len s)); simpl; (done || lia).
Qed.

Lemma offset_is_int z : 0 <= z <= len s -> is_int z.
Proof. unfold is_int, min_int, max_int in *. lia. Qed.

(** The loop, entered in a state [(m, i)] with [i] inside [s], replaces the
    [(n - m + 1)]-th instance of [old] found from [i] on; it neither
    panics nor exhausts a budget larger than the iterations left. *)
Lemma replaceNth_loop_spec fuel n m i :
  is_int n -> 1 <= m <= n + 1 -> 0 <= i <= len s ->
  (Z.to_nat (n - m + 1) < fuel)%nat ->
  replaceNth_loop fuel s old new n m i =
  Ret (replaced s old new
         ((fun r => (Z.to_nat i + r)%nat)
            <$> nth_offset (Z.to_nat (n - m + 1)) old (drop (Z.to_nat i) s))).
Proof.
  intros Hn. revert m i.
  induction fuel as [|fuel IH]; intros m i Hm Hi Hfuel; [lia|].
  simpl. destruct (Z.leb_spec m n) as [Hle|Hgt].
  - rewrite slice_from_ok by done. simpl.
    replace (Z.to_nat (n - m + 1)) with (S (Z.to_nat (n - m))) in * by lia.
    rewrite Index_find. simpl.
    destruct (find old (drop (Z.to_nat i) s)) as [x|] eqn:F; [|done].
    pose proof (find_bound _ _ _ F) as Hx. rewrite length_drop in Hx.
    assert (Z.to_nat i <= String.length s)%nat by (unfold len in Hi; lia).
    destruct (Z.ltb_spec (Z.of_nat x) 0) as [|_]; [lia|].
    assert (Hix : 0 <= i + Z.of_nat x /\
                  i + Z.of_nat x + len old <= len s) by (unfold len in *; lia).
    pose proof (len_nonneg old).
    rewrite (add64_exact i) by (apply offset_is_int; lia).
    rewrite (add64_exact _ (len old)) by (apply offset_is_int; lia).
    destruct (Z.eqb_spec m n) as [->|Hne].
    + rewrite slice_to_ok, slice_from_ok by lia. simpl.
      rewrite Z.sub_diag. simpl. unfold len.
      replace (Z.to_nat (i + Z.of_nat x)) with (Z.to_nat i + x)%nat by lia.
      replace (Z.to_nat (i + Z.of_nat x + Z.of_nat (String.length old)))
        with (Z.to_nat i + x + String.length old)%nat by lia.
      done.
    + rewrite add64_exact by (unfold is_int, min_int, max_int in *; lia).
      rewrite IH by lia.
      replace (Z.to_nat (n - (m + 1) + 1)) with (Z.to_nat (n - m)) by lia.
      destruct (Z.to_nat (n - m)) as [|k] eqn:K; [lia|].
      replace (Z.to_nat (i + Z.of_nat x + len old))
        with (Z.to_nat i + (x + String.length old))%nat by (unfold len; lia).
      rewrite drop_drop.
      destruct (nth_offset (S k) old _) as [r|]; simpl; [|done].
      by rewrite !Nat.add_assoc.
  - replace (Z.to_nat (n - m + 1)) with O by lia. done.
Qed.

(** [replaceNth] always returns: [s] with its [n]-th instance of [old]
    replaced by [new], or [s] itself when the search finds fewer. *)
Lemma replaceNth_spec n :
  is_int n ->
  replaceNth s old new n =
  Ret (replaced s old new (nth_offset (Z.to_nat n) old s)).
Proof.
  intros Hn. unfold replaceNth.
  destruct (Z.le_gt_cases n 0) as [Hle|Hgt].
  - replace (Z.to_nat n) with O by lia. simpl.
    destruct (Z.leb_spec 1 n); [lia|done].
  - rewrite replaceNth_loop_spec; try (done || lia).
    + replace (n - 1 + 1) with n by lia.
      change (Z.to_nat 0) with O. rewrite drop_0.
      by destruct (nth_offset _ _ _).
    + pose proof (len_nonneg s). lia.
Qed.

End ReplaceNth.

(** ** Counting occurrences *)

Section Occurrences.

Variable old : string.

Lemma occurrences_skip k pos s :
  Spec.occurrences old k pos s =
  Spec.occurrences old O (pos + k) (drop k s).
Proof.
  revert k pos. induction s as [|c s IH]; intros k pos.
  - by destruct k.
  - destruct k as [|k].
    + by rewrite Nat.add_0_r, drop_0.
    + simpl. rewrite IH. by rewrite Nat.add_succ_r.
Qed.

Hypothesis old_nonempty : old <> EmptyString.

Lemma prefix_nonempty_nil : String.prefix old EmptyString = false.
Proof. by destruct old. Qed.

(** The scan that skips over each match meets the instances that repeated
    searches find. *)
Lemma occurrences_find pos s :
  Spec.occurrences old O pos s =
  match find old s with
  | None => []
  | Some x =>
      (pos + x)%nat ::
        Spec.occurrences old O (pos + x + String.length old)
          (drop (x + String.length old) s)
  end.
Proof.
  revert pos. induction s as [|c s IH]; intros pos; simpl.
  - by rewrite prefix_nonempty_nil.
  - destruct (String.prefix old (String c s)) eqn:E.
    + rewrite occurrences_skip. rewrite Nat.add_0_r. simpl.
      destruct old as [|d o]; [done|]. simpl.
      do 2 f_equal. lia.
    + rewrite IH. destruct (find old s) as [x|]; simpl; [|done].
      rewrite !Nat.add_succ_r. done.
Qed.

Lemma nth_offset_occurrences k pos s :
  (fun r => (pos + r)%nat) <$> nth_offset (S k) old s =
  Spec.occurrences old O pos s !! k.
Proof.
  revert pos s. induction k as [|k IH]; intros pos s.
  - rewrite occurrences_find. simpl. by destruct (find old s).
  - rewrite occurrences_find.
    change (nth_offset (S (S k)) old s) with
      (match find old s with
       | None => None
       | Some x =>
           (fun r => (x + String.length old + r)%nat)
             <$> nth_offset (S k) old (drop (x + String.length old) s)
       end).
    destruct (find old s) as [x|]; [|done].
    rewrite lookup_cons_ne_0 by done. simpl Nat.pred.
    rewrite <- IH.
    destruct (nth_offset (S k) old _) as [r|]; simpl; [|done].
    f_equal. lia.
Qed.

Lemma nth_offset_lookup k s :
  nth_offset (S k) old s = Spec.occurrences old O O s !! k.
Proof.
  rewrite <- nth_offset_occurrences.
  by destruct (nth_offset (S k) old s).
Qed.

End Occurrences.

Lemma nth_offset_sound k old s i :
  nth_offset k old s = Some i ->
  (i + String.length old <= String.length s)%nat /\
  take (String.length old) (drop i s) = old.
Proof.
  revert s i. induction k as [|k IH]; intros s i; [done|].
  simpl. destruct (find old s) as [x|] eqn:F; [|done].
  pose proof (find_bound _ _ _ F) as Hb.
  destruct k as [|k].
  - intros [= <-]. split; [done|]. by apply prefix_take, find_Some.
  - destruct (nth_offset (S k) old _) as [r|] eqn:N; simpl; [|done].
    intros [= <-]. apply IH in N as [N1 N2].
    rewrite length_drop in N1. split; [lia|].
    by rewrite <- drop_drop.
Qed.

Example replaceNth_join :
  replaceNth "http://h.tld//res" "//" "/" 2 = Ret "http://h.tld/res".
Proof. reflexivity. Qed.

Example replaceNth_resumes_after_match :
  replaceNth "a///b" "//" "/" 2 = Ret "a///b" /\
  replaceNth "a////b" "//" "/" 2 = Ret "a///b".
Proof. split; reflexivity. Qed.

Example replaceNth_empty_needle :
  replaceNth "abc" EmptyString "X" 3 = Ret "Xabc".
Proof. reflexivity. Qed.

(** C8. [replaceNth] is total and never slices out of bounds: for every
    haystack [s] (of a length a Go string can have), needle [old],
    replacement [new] and integer [n] it returns a string, without a panic.
    The string is [s] exactly, or [s] with one instance of [old] replaced by
    [new]; it is [s] when [n <= 0], when [s] is empty and the needle is not,
    and when the needle occurs fewer than [n] times. *)
Theorem replaceNth_total (s old new : string) (n : Z) :
  is_int n -> len s <= max_int ->
  exists r : string,
    replaceNth s old new n = Ret r /\
    (r = s \/
     exists i : nat,
       (i + String.length old <= String.length s)%nat /\
       take (String.length old) (drop i s) = old /\
       r = take i s +:+ new +:+ drop (i + String.length old) s) /\
    (n <= 0 -> r = s) /\
    (s = EmptyString -> old <> EmptyString -> r = s) /\
    (old <> EmptyString ->
     Z.of_nat (List.length (Spec.occurrences old O O s)) < n -> r = s).
Proof.
  intros Hn Hs. eexists. split; [by apply replaceNth_spec|].
  split; [|split; [|split]].
  - destruct (nth_offset (Z.to_nat n) old s) as [i|] eqn:N; simpl; [|by left].
    right. exists i. apply nth_offset_sound in N as [N1 N2]. done.
  - intros Hle. by replace (Z.to_nat n) with O by lia.
  - intros -> Hold. destruct (Z.to_nat n) as [|k]; [done|].
    simpl. by rewrite prefix_nonempty_nil.
  - intros Hold Hlt. destruct (Z.to_nat n) as [|k] eqn:K; [done|].
    rewrite nth_offset_lookup by done.
    rewrite lookup_ge_None_2; [done|]. lia.
Qed.

Lemma replaceNth_total_witness :
  exists r : string,
    replaceNth "a//b//c" "//" "/" 2 = Ret r /\
    (r = "a//b//c" \/
     exists i : nat,
       (i + String.length "//" <= String.length "a//b//c")%nat /\
       take (String.length "//") (drop i "a//b//c") = "//" /\
       r = take i "a//b//c" +:+ "/" +:+ drop (i + String.length "//") "a//b//c") /\
    (2 <= 0 -> r = "a//b//c") /\
    ("a//b//c" = EmptyString -> "//" <> EmptyString -> r = "a//b//c") /\
    ("//" <> EmptyString ->
     Z.of_nat (List.length (Spec.occurrences "//" O O "a//b//c")) < 2 ->
     r = "a//b//c").
Proof.
  apply (replaceNth_total "a//b//c" "//" "/" 2).
  - unfold is_int, min_int, max_int. lia.
  - vm_compute. discriminate.
Defined.

(** ** The pattern and its matches *)

Section Pattern.

Import Regexp.

Implicit Types (s t a b name rest : string) (c : ascii) (n k : nat).

Lemma is_brace_false c : is_brace c = false <-> c <> lbrace /\ c <> rbrace.
Proof.
  unfold is_brace. rewrite orb_false_iff, !Ascii.eqb_neq. done.
Qed.

Lemma is_brace_lbrace : is_brace lbrace = true.
Proof. reflexivity. Qed.

Lemma is_brace_rbrace : is_brace rbrace = true.
Proof. reflexivity. Qed.

Lemma name_span_le s : (name_span s <= String.length s)%nat.
Proof. induction s as [|c s IH]; simpl; [lia|]. destruct (is_brace c); lia. Qed.

Lemma name_span_brace_free s : Spec.brace_free (take (name_span s) s).
Proof.
  induction s as [|c s IH]; simpl; [done|].
  destruct (is_brace c) eqn:E; simpl; [done|].
  apply is_brace_false in E as [? ?]. done.
Qed.

Lemma brace_free_span name rest :
  Spec.brace_free name ->
  name_span (name +:+ rest) = (String.length name + name_span rest)%nat.
Proof.
  induction name as [|c name IH]; simpl; [done|].
  intros (H1 & H2 & H3). rewrite ?app_cons. simpl.
  assert (is_brace c = false) as -> by by apply is_brace_false.
  by rewrite IH.
Qed.

Lemma name_span_stop s :
  (name_span s < String.length s)%nat ->
  exists c t, drop (name_span s) s = String c t /\ is_brace c = true.
Proof.
  induction s as [|c s IH]; simpl; [lia|].
  destruct (is_brace c) eqn:E; simpl.
  - eauto.
  - intros H. apply IH. lia.
Qed.

Lemma name_span_app_stop s b :
  (name_span s < String.length s)%nat -> name_span (s +:+ b) = name_span s.
Proof.
  induction s as [|c s IH]; simpl; [lia|].
  rewrite ?app_cons. simpl. destruct (is_brace c); [done|].
  intros H. rewrite IH; [done|lia].
Qed.

Lemma name_span_app_all s b :
  name_span s = String.length s ->
  name_span (s +:+ b) = (String.length s + name_span b)%nat.
Proof.
  induction s as [|c s IH]; simpl; [done|].
  rewrite ?app_cons. simpl. destruct (is_brace c); [done|].
  intros H. rewrite IH; [done|lia].
Qed.

Lemma token_app name rest :
  Spec.token name +:+ rest =
  String lbrace (name +:+ String rbrace rest).
Proof. unfold Spec.token. by rewrite app_cons, app_assoc. Qed.

Lemma token_length name :
  String.length (Spec.token name) = S (S (String.length name)).
Proof. unfold Spec.token. simpl. rewrite length_app. simpl. lia. Qed.

(** At the start of a string the pattern matches exactly a token with a
    valid name. *)
Lemma match_here_token name rest :
  Spec.valid_name name ->
  match_here (Spec.token name +:+ rest) = Some (S (S (String.length name))).
Proof.
  intros [Hne Hbf]. rewrite token_app. unfold match_here.
  rewrite Ascii.eqb_refl, brace_free_span by done. simpl name_span.
  rewrite Nat.add_0_r.
  pose proof (drop_app_length name (String rbrace rest)) as D.
  destruct (String.length name) eqn:L; [by destruct name|].
  by rewrite D, Ascii.eqb_refl.
Qed.

Lemma match_here_inv s n :
  match_here s = Some n ->
  exists name rest,
    Spec.valid_name name /\ s = Spec.token name +:+ rest /\
    n = S (S (String.length name)).
Proof.
  destruct s as [|c t]; [done|]. unfold match_here.
  destruct (Ascii.eqb_spec c lbrace) as [->|]; [|done].
  destruct (name_span t) as [|k] eqn:K; [done|].
  destruct (drop (S k) t) as [|d rest] eqn:D; [done|].
  destruct (Ascii.eqb_spec d rbrace) as [->|]; [|done].
  intros [= <-]. exists (take (S k) t), rest.
  pose proof (name_span_le t) as Hle.
  assert (Hlen : String.length (take (S k) t) = S k)
    by (rewrite length_take; lia).
  split; [split|split].
  - intros E. rewrite E in Hlen. done.
  - rewrite <- K. apply name_span_brace_free.
  - by rewrite token_app, <- D, take_drop.
  - by rewrite Hlen.
Qed.

Lemma match_here_spec s n :
  match_here s = Some n <->
  exists name rest,
    Spec.valid_name name /\ s = Spec.token name +:+ rest /\
    n = S (S (String.length name)).
Proof.
  split; [apply match_here_inv|].
  intros (name & rest & Hv & -> & ->). by apply match_here_token.
Qed.

Lemma match_here_take s n :
  match_here s = Some n -> Spec.is_token (take n s).
Proof.
  intros (name & rest & Hv & -> & ->)%match_here_inv.
  exists name. split; [done|].
  by rewrite <- token_length, take_app_length.
Qed.

Lemma match_here_bounds s n :
  match_here s = Some n -> (3 <= n <= String.length s)%nat.
Proof.
  intros (name & rest & [Hne _] & -> & ->)%match_here_inv.
  rewrite length_app, token_length. destruct name; [done|]. simpl. lia.
Qed.

End Pattern.

(** ** [ReplaceAllStringFunc] *)

#[local] Arguments Regexp.match_here : simpl never.

Section ReplaceAll.

Import Regexp.

Implicit Types (repl : string -> string) (s t a b : string) (n k : nat).

Lemma replaceAll_skip repl k s :
  replaceAll repl k s = replaceAll repl O (drop k s).
Proof.
  revert k. induction s as [|c s IH]; intros [|k]; try done.
  simpl. apply IH.
Qed.

(** The scan, one match or one byte at a time. *)
Lemma replaceAll_unfold repl s :
  replaceAll repl O s =
  match match_here s with
  | Some n => repl (take n s) +:+ replaceAll repl O (drop n s)
  | None =>
      match s with
      | EmptyString => EmptyString
      | String c t => String c (replaceAll repl O t)
      end
  end.
Proof.
  destruct s as [|c t]; [done|].
  change (replaceAll repl O (String c t)) with
    (match match_here (String c t) with
     | Some n => repl (take n (String c t)) +:+ replaceAll repl (Nat.pred n) t
     | None => String c (replaceAll repl O t)
     end).
  destruct (match_here (String c t)) as [n|] eqn:M; [|done].
  apply match_here_bounds in M. destruct n as [|n]; [lia|].
  by rewrite replaceAll_skip.
Qed.

Lemma replaceAll_match repl s n :
  match_here s = Some n ->
  replaceAll repl O s = repl (take n s) +:+ replaceAll repl O (drop n s).
Proof. intros M. by rewrite replaceAll_unfold, M. Qed.

Lemma replaceAll_no_match repl c t :
  match_here (String c t) = None ->
  replaceAll repl O (String c t) = String c (replaceAll repl O t).
Proof. intros M. by rewrite replaceAll_unfold, M. Qed.

(** The callback is only ever applied to matches of the pattern. *)
Lemma replaceAll_ext repl1 repl2 k s :
  (forall m, Spec.is_token m -> repl1 m = repl2 m) ->
  replaceAll repl1 k s = replaceAll repl2 k s.
Proof.
  intros H. revert k. induction s as [|c s IH]; intros k; [done|].
  simpl. destruct k as [|k]; [|apply IH].
  destruct (match_here (String c s)) as [n|] eqn:M.
  - rewrite IH. f_equal. apply H, (match_here_take _ _ M).
  - by rewrite IH.
Qed.

(** A token with a valid name is replaced as a whole, and the scan goes on
    behind it. *)
Lemma replaceAll_token repl name rest :
  Spec.valid_name name ->
  replaceAll repl O (Spec.token name +:+ rest) =
  repl (Spec.token name) +:+ replaceAll repl O rest.
Proof.
  intros Hv. rewrite (replaceAll_match _ _ _ (match_here_token _ rest Hv)).
  by rewrite <- token_length, take_app_length, drop_app_length.
Qed.

(** No match reaches across an opening brace. *)
Lemma match_here_app s b n :
  match_here s = Some n -> match_here (s +:+ b) = Some n.
Proof.
  intros (name & rest & Hv & -> & ->)%match_here_inv.
  rewrite app_assoc. by apply match_here_token.
Qed.

Lemma match_here_app_None c t b :
  match_here (String c t) = None ->
  b = EmptyString \/ (exists b', b = String lbrace b') ->
  match_here (String c t +:+ b) = None.
Proof.
  intros M Hb. rewrite app_cons. unfold match_here in *.
  destruct (Ascii.eqb c lbrace); [|done].
  pose proof (name_span_le t) as Hle.
  destruct (decide (name_span t = String.length t)) as [E|E].
  - rewrite name_span_app_all by done.
    assert (name_span b = O) as ->.
    { by destruct Hb as [->|[b' ->]]. }
    rewrite Nat.add_0_r.
    pose proof (drop_app_length t b) as D.
    destruct (String.length t); [done|]. rewrite D.
    by destruct Hb as [->|[b' ->]].
  - rewrite name_span_app_stop by lia.
    destruct (name_span t) as [|k] eqn:K; [done|].
    rewrite drop_app_le by lia.
    destruct (drop (S k) t) as [|d r] eqn:D; [|by rewrite app_cons].
    exfalso. pose proof (length_drop (S k) t) as L.
    rewrite D in L. simpl in L. lia.
Qed.

Lemma replaceAll_app_brace repl a b :
  b = EmptyString \/ (exists b', b = String lbrace b') ->
  replaceAll repl O (a +:+ b) = replaceAll repl O a +:+ replaceAll repl O b.
Proof.
  intros Hb. remember (String.length a) as len eqn:L. revert a L.
  induction len as [len IH] using lt_wf_ind. intros a ->.
  destruct (match_here a) as [n|] eqn:M.
  - rewrite (replaceAll_match _ _ _ (match_here_app _ b _ M)).
    rewrite (replaceAll_match _ _ _ M).
    pose proof (match_here_bounds _ _ M).
    rewrite take_app_le, drop_app_le by lia.
    rewrite (IH (String.length (drop n a))); [|rewrite length_drop; lia|done].
    by rewrite app_assoc.
  - destruct a as [|c t]; [done|].
    pose proof (match_here_app_None _ _ _ M Hb) as M'.
    rewrite (replaceAll_no_match _ _ _ M).
    rewrite app_cons in M' |- *.
    rewrite (replaceAll_no_match _ _ _ M').
    rewrite (IH (String.length t)); simpl; [done|lia|done].
Qed.

(** Substitution is compositional around a token. *)
Lemma replaceAll_around_token repl a name b :
  Spec.valid_name name ->
  replaceAll repl O (a +:+ Spec.token name +:+ b) =
  replaceAll repl O a +:+ repl (Spec.token name) +:+ replaceAll repl O b.
Proof.
  intros Hv. rewrite replaceAll_app_brace.
  - by rewrite replaceAll_token.
  - right. rewrite token_app. eauto.
Qed.

(** Text without any brace is copied. *)
Lemma replaceAll_no_lbrace repl s :
  (forall a b, s <> a +:+ String lbrace b) -> replaceAll repl O s = s.
Proof.
  induction s as [|c s IH]; intros H; [done|].
  rewrite replaceAll_no_match.
  - f_equal. apply IH. intros a b E. apply (H (String c a) b).
    by rewrite app_cons, E.
  - unfold match_here. destruct (Ascii.eqb_spec c lbrace) as [->|]; [|done].
    by destruct (H EmptyString s).
Qed.

End ReplaceAll.

(** ** The match list *)

Section MatchList.

Import Regexp.

Implicit Types (repl : string -> string) (s t : string) (pos i n : nat).
Implicit Types (ms : list (nat * nat)).

Lemma match_here_not_lbrace c t :
  c <> lbrace -> match_here (String c t) = None.
Proof.
  intros H. unfold match_here. by destruct (Ascii.eqb_spec c lbrace).
Qed.

(** No match starts inside a name. *)
Lemma matches_from_name pos name rest :
  Spec.brace_free name ->
  Spec.matches_from pos (name +:+ rest) =
  Spec.matches_from (pos + String.length name) rest.
Proof.
  revert pos. induction name as [|c name IH]; intros pos Hbf.
  - by rewrite app_nil_l, Nat.add_0_r.
  - destruct Hbf as (H1 & H2 & H3). rewrite app_cons. simpl.
    rewrite match_here_not_lbrace by done.
    rewrite IH by done. f_equal. lia.
Qed.

(** A match is listed, and the next listed match starts behind it. *)
Lemma matches_from_match pos s n :
  match_here s = Some n ->
  Spec.matches_from pos s =
  (pos, n) :: Spec.matches_from (pos + n) (drop n s).
Proof.
  intros M. pose proof M as (name & rest & Hv & -> & ->)%match_here_inv.
  rewrite <- token_length, drop_app_length, token_length.
  revert M. rewrite token_app. intros M. simpl. rewrite M. f_equal.
  rewrite matches_from_name by apply Hv. simpl.
  f_equal. lia.
Qed.

Lemma matches_from_ge pos s i n :
  (i, n) ∈ Spec.matches_from pos s -> (pos <= i)%nat.
Proof.
  revert pos. induction s as [|c s IH]; intros pos; simpl.
  - by intros ?%elem_of_nil.
  - destruct (match_here (String c s)).
    + intros [[= -> ->]|H]%elem_of_cons; [done|]. apply IH in H. lia.
    + intros H. apply IH in H. lia.
Qed.

(** The listed matches are exactly the places where the pattern matches. *)
Lemma matches_from_elem pos s i n :
  (i, n) ∈ Spec.matches_from pos s <->
  exists j, i = (pos + j)%nat /\ (j < String.length s)%nat /\
            match_here (drop j s) = Some n.
Proof.
  revert pos. induction s as [|c s IH]; intros pos; simpl.
  - split; [by intros ?%elem_of_nil|]. intros (j & _ & ? & _). lia.
  - assert (Hrec : (i, n) ∈ Spec.matches_from (S pos) s <->
                   exists j, i = (pos + S j)%nat /\
                             (S j < S (String.length s))%nat /\
                             match_here (drop (S j) (String c s)) = Some n).
    { rewrite IH. split; intros (j & -> & Hj & M); exists j;
        (split; [lia|split; [lia|done]]). }
    destruct (match_here (String c s)) as [n0|] eqn:M.
    + rewrite elem_of_cons, Hrec. split.
      * intros [[= -> ->]|(j & -> & Hj & Mj)].
        -- exists O. rewrite drop_0. split; [lia|split; [lia|done]].
        -- exists (S j). done.
      * intros ([|j] & -> & Hj & Mj).
        -- left. rewrite drop_0, M in Mj. simplify_eq.
           by rewrite Nat.add_0_r.
        -- right. exists j. done.
    + rewrite Hrec. split.
      * intros (j & -> & Hj & Mj). exists (S j). done.
      * intros ([|j] & -> & Hj & Mj).
        -- rewrite drop_0, M in Mj. done.
        -- exists j. done.
Qed.

Lemma match_list_elem s i n :
  (i, n) ∈ Spec.match_list s <->
  (i + n <= String.length s)%nat /\ Spec.is_token (take n (drop i s)).
Proof.
  unfold Spec.match_list. rewrite matches_from_elem. split.
  - intros (j & -> & Hj & M). simpl.
    pose proof (match_here_bounds _ _ M) as Hb. rewrite length_drop in Hb.
    split; [lia|]. by apply match_here_take.
  - intros (Hlen & name & Hv & E). exists i. split; [done|].
    assert (Hn : n = S (S (String.length name))).
    { rewrite <- token_length, <- E, length_take, length_drop. lia. }
    split; [lia|].
    rewrite <- (take_drop n (drop i s)), E, Hn. by apply match_here_token.
Qed.

Lemma apart_weaken pos pos' ms :
  (pos <= pos')%nat -> Spec.apart pos' ms -> Spec.apart pos ms.
Proof. destruct ms as [|[i n] ms]; simpl; [done|]. intros ? [? ?]. split; [lia|done]. Qed.

Lemma matches_from_apart pos s : Spec.apart pos (Spec.matches_from pos s).
Proof.
  remember (String.length s) as len eqn:L. revert s pos L.
  induction len as [len IH] using lt_wf_ind. intros s pos ->.
  destruct (match_here s) as [n|] eqn:M.
  - rewrite (matches_from_match _ _ _ M). simpl. split; [done|].
    pose proof (match_here_bounds _ _ M).
    apply (IH (String.length (drop n s))); [rewrite length_drop; lia|done].
  - destruct s as [|c t]; [done|]. simpl. rewrite M.
    apply (apart_weaken _ (S pos)); [lia|].
    apply (IH (String.length t)); simpl; [lia|done].
Qed.

Lemma splice_step repl s pos c t ms :
  drop pos s = String c t ->
  (forall i n, (i, n) ∈ ms -> (S pos <= i)%nat) ->
  Spec.splice repl s pos ms = String c (Spec.splice repl s (S pos) ms).
Proof.
  intros D H. destruct ms as [|[i n] ms]; cbn [Spec.splice].
  - by rewrite (drop_S _ _ _ _ D).
  - assert (S pos <= i)%nat as Hi by (eapply H; left).
    rewrite D, (drop_S _ _ _ _ D).
    replace (i - pos)%nat with (S (i - S pos)) by lia. done.
Qed.

(** The scan replaces the listed matches, reading the original string. *)
Lemma replaceAll_splice repl s pos :
  replaceAll repl O (drop pos s) =
  Spec.splice repl s pos (Spec.matches_from pos (drop pos s)).
Proof.
  remember (String.length s - pos)%nat as len eqn:L. revert pos L.
  induction len as [len IH] using lt_wf_ind. intros pos ->.
  destruct (match_here (drop pos s)) as [n|] eqn:M.
  - rewrite (replaceAll_match _ _ _ M), (matches_from_match _ _ _ M). simpl.
    pose proof (match_here_bounds _ _ M) as Hb. rewrite length_drop in Hb.
    rewrite Nat.sub_diag, take_0, app_nil_l, drop_drop.
    by rewrite (IH (String.length s - (pos + n))%nat) by lia.
  - destruct (drop pos s) as [|c t] eqn:D.
    + simpl. by rewrite D.
    + rewrite (replaceAll_no_match _ _ _ M). simpl. rewrite M.
      assert (Hlen : (pos < String.length s)%nat).
      { pose proof (length_drop pos s) as Hd. rewrite D in Hd. simpl in Hd. lia. }
      pose proof (drop_S _ _ _ _ D) as D'.
      rewrite (splice_step _ _ _ _ _ _ D)
        by (intros i n; apply matches_from_ge).
      f_equal. rewrite <- D'.
      by apply (IH (String.length s - S pos)%nat); [lia|].
Qed.

Lemma ReplaceAllStringFunc_splice repl s :
  ReplaceAllStringFunc s repl = Spec.splice repl s O (Spec.match_list s).
Proof.
  unfold ReplaceAllStringFunc, Spec.match_list.
  rewrite <- (drop_0 s) at 1 3. apply replaceAll_splice.
Qed.

End MatchList.

(** ** [replacePlaceholders] *)

Section Templates.

Variable opt : options.

Lemma token_name name :
  drop 1 (take (String.length (Spec.token name) - 1) (Spec.token name)) = name.
Proof.
  rewrite token_length. unfold Spec.token. simpl.
  apply take_app_length.
Qed.

(** The bounds check of [match[1 : len(match)-1]] passes on every token. *)
Lemma token_slice_in_bounds m :
  Spec.is_token m -> 0 <= 1 <= len m - 1 /\ len m - 1 <= len m.
Proof.
  intros (name & _ & ->). unfold len. rewrite token_length. lia.
Qed.

(** On a token the callback computes the Placeholder Resolver's answer
    for the name between the braces. *)
Lemma placeholder_value_token name :
  placeholder_value opt (Spec.token name) = Spec.resolve opt name.
Proof.
  unfold placeholder_value, Spec.resolve. rewrite token_name.
  destruct (placeholders opt !! name); [done|].
  by destruct (replace opt).
Qed.

Lemma replacePlaceholders_around_token a name b :
  Spec.valid_name name ->
  replacePlaceholders opt (a +:+ Spec.token name +:+ b) =
  replacePlaceholders opt a +:+ Spec.resolve opt name
    +:+ replacePlaceholders opt b.
Proof.
  intros Hv. unfold replacePlaceholders, Regexp.ReplaceAllStringFunc.
  by rewrite replaceAll_around_token, placeholder_value_token.
Qed.

End Templates.

(** C3. For a placeholder name occurring in a path, anywhere, the value put
    in its place follows the precedence: the value mapped to the name in
    [opt.placeholders] if the name is a key (whatever the value, the empty
    string included, and whatever [opt.replace] is); otherwise [opt.replace]
    if it is not empty; otherwise the token itself, braces included. *)
Theorem placeholder_precedence (opt : options) (a name b : string) :
  Spec.valid_name name ->
  (forall value : string,
     placeholders opt !! name = Some value ->
     replacePlaceholders opt (a +:+ Spec.token name +:+ b) =
     replacePlaceholders opt a +:+ value +:+ replacePlaceholders opt b) /\
  (placeholders opt !! name = None -> replace opt <> EmptyString ->
   replacePlaceholders opt (a +:+ Spec.token name +:+ b) =
   replacePlaceholders opt a +:+ replace opt +:+ replacePlaceholders opt b) /\
  (placeholders opt !! name = None -> replace opt = EmptyString ->
   replacePlaceholders opt (a +:+ Spec.token name +:+ b) =
   replacePlaceholders opt a +:+ Spec.token name
     +:+ replacePlaceholders opt b).
Proof.
  intros Hv. rewrite replacePlaceholders_around_token by done.
  unfold Spec.resolve. split; [|split].
  - by intros value ->.
  - intros -> Hr. by destruct (replace opt).
  - by intros -> ->.
Qed.

Lemma placeholder_precedence_witness :
  let opt := parsePlaceholders (parsed_flags "api.wadl" "XXX" false ["id="]) in
  Spec.valid_name "id" /\
  ((forall value : string,
      placeholders opt !! "id" = Some value ->
      replacePlaceholders opt ("/users/{oid}/" +:+ Spec.token "id" +:+ "/x") =
      replacePlaceholders opt "/users/{oid}/" +:+ value
        +:+ replacePlaceholders opt "/x") /\
   (placeholders opt !! "id" = None -> replace opt <> EmptyString ->
    replacePlaceholders opt ("/users/{oid}/" +:+ Spec.token "id" +:+ "/x") =
    replacePlaceholders opt "/users/{oid}/" +:+ replace opt
      +:+ replacePlaceholders opt "/x") /\
   (placeholders opt !! "id" = None -> replace opt = EmptyString ->
    replacePlaceholders opt ("/users/{oid}/" +:+ Spec.token "id" +:+ "/x") =
    replacePlaceholders opt "/users/{oid}/" +:+ Spec.token "id"
      +:+ replacePlaceholders opt "/x")).
Proof.
  intros opt.
  assert (Hv : Spec.valid_name "id").
  { split; [discriminate|]. simpl. repeat split; discriminate. }
  split; [exact Hv|].
  apply (placeholder_precedence opt "/users/{oid}/" "id" "/x" Hv).
Defined.

(** C4. The Template Renderer replaces exactly the matches of the pattern
    (an opening brace, one or more bytes that are no brace, a closing
    brace): the match list holds every place where a token with a valid name
    stands and nothing else, its entries lie apart from left to right, and
    the result is the original string with each listed match replaced by the
    callback's value for it.  Replacement text is inserted verbatim and not
    scanned again, and a string none of whose substrings is a match is
    returned unchanged. *)
Theorem template_renderer_matches (opt : options) (path : string) :
  replacePlaceholders opt path =
    Spec.splice (placeholder_value opt) path O (Spec.match_list path) /\
  (forall i n : nat,
     (i, n) ∈ Spec.match_list path <->
     (i + n <= String.length path)%nat /\
     Spec.is_token (take n (drop i path))) /\
  Spec.apart O (Spec.match_list path) /\
  (forall a name b : string,
     Spec.valid_name name -> path = a +:+ Spec.token name +:+ b ->
     replacePlaceholders opt path =
     replacePlaceholders opt a +:+ placeholder_value opt (Spec.token name)
       +:+ replacePlaceholders opt b) /\
  (Spec.match_list path = [] -> replacePlaceholders opt path = path) /\
  ((forall a m b : string, path = a +:+ m +:+ b -> ~ Spec.is_token m) ->
   replacePlaceholders opt path = path).
Proof.
  assert (E := ReplaceAllStringFunc_splice (placeholder_value opt) path).
  fold (replacePlaceholders opt path) in E.
  assert (Hnil : Spec.match_list path = [] -> replacePlaceholders opt path = path).
  { intros Hnil. rewrite E, Hnil. simpl. apply drop_0. }
  split; [done|]. split; [apply match_list_elem|].
  split; [apply matches_from_apart|]. split; [|split; [done|]].
  - intros a name b Hv ->. by apply replaceAll_around_token.
  - intros Hno. apply Hnil.
    destruct (Spec.match_list path) as [|[i n] ms] eqn:L; [done|].
    assert (Hin : (i, n) ∈ Spec.match_list path) by (rewrite L; left).
    apply match_list_elem in Hin as [_ Htok].
    destruct (Hno (take i path) (take n (drop i path)) (drop n (drop i path)));
      [|done].
    by rewrite !take_drop.
Qed.

Example default_replacement_everywhere :
  replacePlaceholders (parsed_flags "api.wadl" "XXX" false [])
    "/users/{id}/orders/{oid}"
  = "/users/XXX/orders/XXX".
Proof. reflexivity. Qed.

Example unmatched_braces_are_kept :
  replacePlaceholders
    (parsePlaceholders (parsed_flags "api.wadl" "XXX" false ["id=42"]))
    "/{}/{id/{id}}/{{id}"
  = "/{}/{id/42}/{42".
Proof. reflexivity. Qed.

(** The value of a placeholder is not searched for placeholders again. *)
Example replacement_not_rescanned :
  replacePlaceholders
    (parsePlaceholders (parsed_flags "api.wadl" "" false ["a={b}"; "b=X"]))
    "/{a}/{b}{}{{c}"
  = "/{b}/X{}{{c}".
Proof. reflexivity. Qed.

(** ** [parsePlaceholders] *)

Section Placeholders.

Import Spec.

Lemma find_eq_sign c p :
  find eq_sign (String c p) =
  if Ascii.eqb c "="%char then Some O else S <$> find eq_sign p.
Proof.
  simpl. unfold eq_sign at 1.
  by rewrite prefix_cons, prefix_nil, andb_true_r, Ascii.eqb_sym.
Qed.

Lemma cut_sound p name value :
  Spec.cut p = Some (name, value) ->
  p = name +:+ eq_sign +:+ value /\ find eq_sign p = Some (String.length name).
Proof.
  revert name. induction p as [|c p IH]; intros name; [done|].
  rewrite find_eq_sign. simpl.
  destruct (Ascii.eqb_spec c "="%char) as [->|_].
  - by intros [= <- <-].
  - destruct (Spec.cut p) as [[n v]|]; [|done].
    intros [= <- <-]. destruct (IH n eq_refl) as [-> F].
    by rewrite F.
Qed.

Lemma cut_None p : Spec.cut p = None -> find eq_sign p = None.
Proof.
  induction p as [|c p IH]; [done|].
  rewrite find_eq_sign. simpl.
  destruct (Ascii.eqb_spec c "="%char) as [->|_]; [done|].
  destruct (Spec.cut p) as [[n v]|]; [done|].
  intros _. by rewrite IH.
Qed.

(** [strings.SplitN(p, "=", 2)] cuts [p] at its first [=]. *)
Lemma SplitN2_cut p :
  SplitN2 p eq_sign =
  match Spec.cut p with
  | Some (name, value) => [name; value]
  | None => [p]
  end.
Proof.
  unfold SplitN2. rewrite Index_find.
  destruct (Spec.cut p) as [[name value]|] eqn:C.
  - apply cut_sound in C as [-> F]. rewrite F.
    destruct (Z.ltb_spec (Z.of_nat (String.length name)) 0); [lia|].
    rewrite Nat2Z.id, take_app_length.
    rewrite <- drop_drop, drop_app_length. done.
  - by rewrite (cut_None _ C).
Qed.

Lemma parsePlaceholder_cut opt p :
  parsePlaceholder opt p =
  match Spec.cut p with
  | Some (name, value) =>
      set_placeholders (<[name := value]> (placeholders opt)) opt
  | None => opt
  end.
Proof.
  unfold parsePlaceholder. change "=" with eq_sign. rewrite SplitN2_cut.
  by destruct (Spec.cut p) as [[name value]|].
Qed.

Lemma cut_first name value :
  ~ Spec.occurs eq_sign name ->
  Spec.cut (name +:+ eq_sign +:+ value) = Some (name, value).
Proof.
  induction name as [|c name IH]; intros H; [done|].
  rewrite app_cons. simpl.
  destruct (Ascii.eqb_spec c "="%char) as [->|_].
  - destruct H. by exists EmptyString, name.
  - rewrite IH; [done|]. intros (a & b & ->). apply H.
    by exists (String c a), b.
Qed.

Lemma cut_without p : ~ Spec.occurs eq_sign p -> Spec.cut p = None.
Proof.
  intros H. destruct (Spec.cut p) as [[name value]|] eqn:C; [|done].
  destruct H. apply cut_sound in C as [-> _]. by exists name, value.
Qed.

Lemma foldl_parsePlaceholder_fields opt args :
  let opt' := foldl parsePlaceholder opt args in
  baseURL opt' = baseURL opt /\ input opt' = input opt /\
  replace opt' = replace opt /\ showBase opt' = showBase opt /\
  placeholderArgs opt' = placeholderArgs opt.
Proof.
  revert opt. induction args as [|p args IH]; intros opt; simpl; [done|].
  destruct (IH (parsePlaceholder opt p)) as (-> & -> & -> & -> & ->).
  rewrite parsePlaceholder_cut.
  by destruct (Spec.cut p) as [[name value]|].
Qed.

Lemma foldl_parsePlaceholder_lookup opt args name :
  placeholders (foldl parsePlaceholder opt args) !! name =
  match Spec.last_binding name args with
  | Some value => Some value
  | None => placeholders opt !! name
  end.
Proof.
  revert opt. induction args as [|p args IH]; intros opt; simpl; [done|].
  rewrite IH. destruct (Spec.last_binding name args); [done|].
  rewrite parsePlaceholder_cut.
  destruct (Spec.cut p) as [[n value]|]; [|done]. simpl.
  destruct (String.eqb_spec n name) as [->|Hne].
  - by rewrite lookup_insert_eq.
  - by rewrite lookup_insert_ne.
Qed.

End Placeholders.

Lemma last_binding_skip name pre p post :
  (forall n v, Spec.cut p = Some (n, v) -> n <> name) ->
  Spec.last_binding name (pre ++ p :: post) = Spec.last_binding name (pre ++ post).
Proof.
  intros H. induction pre as [|q pre IH]; simpl.
  - destruct (Spec.last_binding name post); [done|].
    destruct (Spec.cut p) as [[n v]|] eqn:C; [|done].
    destruct (String.eqb_spec n name) as [->|]; [|done].
    by destruct (H _ _ eq_refl).
  - by rewrite IH.
Qed.

Lemma parsePlaceholders_lookup i r b args name :
  placeholders (parsePlaceholders (parsed_flags i r b args)) !! name =
  Spec.last_binding name args.
Proof.
  unfold parsePlaceholders. simpl. rewrite foldl_parsePlaceholder_lookup.
  simpl. rewrite lookup_empty. by destruct (Spec.last_binding name args).
Qed.

(** C6. The mapping is built from the arguments in order: each argument is
    split at its first [=] into name and value, an argument without [=] is
    dropped without any effect, and the value found for a name is the one of
    the last argument that binds it. *)
Theorem parsePlaceholders_last_write_wins
  (i r : string) (b : bool) (args : list string) :
  (forall name : string,
     placeholders (parsePlaceholders (parsed_flags i r b args)) !! name =
     Spec.last_binding name args) /\
  (forall (opt : options) (name value : string),
     ~ Spec.occurs "=" name ->
     parsePlaceholder opt (name +:+ "=" +:+ value) =
     set_placeholders (<[name := value]> (placeholders opt)) opt) /\
  (forall (opt : options) (p : string),
     ~ Spec.occurs "=" p -> parsePlaceholder opt p = opt) /\
  (forall (pre post : list string) (p : string),
     args = pre ++ p :: post -> ~ Spec.occurs "=" p ->
     placeholders (parsePlaceholders (parsed_flags i r b args)) =
     placeholders (parsePlaceholders (parsed_flags i r b (pre ++ post)))) /\
  (forall (pre post : list string) (name value : string),
     args = pre ++ (name +:+ "=" +:+ value) :: post ->
     ~ Spec.occurs "=" name ->
     Spec.last_binding name post = None ->
     placeholders (parsePlaceholders (parsed_flags i r b args)) !! name =
     Some value) /\
  placeholders (parsePlaceholders (parsed_flags i r b ["id=42"; "id=43"]))
    !! "id" = Some "43".
Proof.
  split; [apply parsePlaceholders_lookup|].
  split; [|split; [|split; [|split]]].
  - intros opt name value H.
    by rewrite parsePlaceholder_cut, (cut_first _ _ H).
  - intros opt p H. by rewrite parsePlaceholder_cut, (cut_without _ H).
  - intros pre post p -> H. apply map_eq. intros name.
    rewrite !parsePlaceholders_lookup. apply last_binding_skip.
    intros n v. by rewrite (cut_without _ H).
  - intros pre post name value -> H Hpost.
    rewrite parsePlaceholders_lookup.
    induction pre as [|q pre IH]; simpl.
    + rewrite Hpost. change "=" with Spec.eq_sign.
      by rewrite (cut_first _ _ H), String.eqb_refl.
    + by rewrite IH.
  - reflexivity.
Qed.

(** ** The run of [main] *)

Section Run.

Implicit Types (opt : options) (σ : Streams) (w : World) (d : Document).

Lemma collapse_second_replaced s :
  Spec.collapse_second s = replaced s "//" "/" (nth_offset 2 "//" s).
Proof.
  rewrite (nth_offset_lookup "//") by done. unfold Spec.collapse_second.
  change Spec.separator with "//".
  by destruct (Spec.occurrences "//" O O s) as [|j [|k l]].
Qed.

(** The call [replaceNth(path, "//", "/", 2)] applies the
    second-occurrence collapse rule. *)
Lemma replaceNth_collapse s :
  len s <= max_int ->
  replaceNth s "//" "/" 2 = Ret (Spec.collapse_second s).
Proof.
  intros Hs. rewrite replaceNth_spec, collapse_second_replaced; [done..|].
  unfold is_int, min_int, max_int. lia.
Qed.

Lemma collapse_second_few s :
  (List.length (Spec.occurrences Spec.separator O O s) < 2)%nat ->
  Spec.collapse_second s = s.
Proof.
  unfold Spec.collapse_second.
  destruct (Spec.occurrences _ _ _ s) as [|j [|k l]]; simpl; (done || lia).
Qed.

Lemma second_of_occurrences s :
  match Spec.occurrences Spec.separator O O s with
  | _ :: k :: _ => Spec.second_separator s k
  | _ => forall k, ~ Spec.second_separator s k
  end.
Proof.
  assert (Hne : Spec.separator <> EmptyString) by done.
  rewrite (occurrences_find _ Hne).
  destruct (find Spec.separator s) as [x|] eqn:F1.
  - rewrite (occurrences_find _ Hne).
    assert (H1 : Spec.first_from Spec.separator s O x).
    { apply (find_first_from _ _ O). by rewrite drop_0. }
    destruct (find Spec.separator (drop (x + String.length Spec.separator) s))
      as [y|] eqn:F2.
    + exists x. split; [done|]. by apply find_first_from.
    + intros k (j & Hj & Hge & Hk & _).
      rewrite <- (first_from_unique _ _ _ _ _ H1 Hj) in Hge.
      by destruct (find_None_from _ _ _ k F2 Hge).
  - intros k (j & (_ & Hj & _) & _).
    eapply (find_None_from _ _ O) in Hj; [done| |lia]. by rewrite drop_0.
Qed.

Lemma second_separator_unique s k k' :
  Spec.second_separator s k -> Spec.second_separator s k' -> k = k'.
Proof.
  intros (j & Hj & Hk) (j' & Hj' & Hk').
  rewrite <- (first_from_unique _ _ _ _ _ Hj Hj') in Hk'.
  by eapply first_from_unique.
Qed.

(** The collapse rule, said without a scan: the second separator, if there
    is one, becomes a single slash; otherwise nothing changes. *)
Lemma collapse_second_spec s :
  (forall k, Spec.second_separator s k ->
     Spec.collapse_second s = take k s +:+ "/" +:+ drop (k + 2) s) /\
  ((forall k, ~ Spec.second_separator s k) -> Spec.collapse_second s = s).
Proof.
  pose proof (second_of_occurrences s) as H. unfold Spec.collapse_second.
  destruct (Spec.occurrences Spec.separator O O s) as [|j [|k0 rest]].
  - split; [|done]. intros k Hk. by destruct (H k).
  - split; [|done]. intros k Hk. by destruct (H k).
  - split.
    + intros k Hk. by rewrite (second_separator_unique _ _ _ Hk H).
    + intros Hno. by destruct (Hno k0).
Qed.

Lemma emit_path_no_base opt paths σ :
  baseURL opt = EmptyString ->
  emit_path opt paths σ =
  Print_stdout (replacePlaceholders opt paths +:+ newline) σ.
Proof. intros E. unfold emit_path. by rewrite E. Qed.

Lemma emit_path_base opt paths σ :
  baseURL opt <> EmptyString ->
  len (replacePlaceholders opt (baseURL opt +:+ paths)) <= max_int ->
  emit_path opt paths σ =
  Print_stdout
    (Spec.collapse_second (replacePlaceholders opt (baseURL opt +:+ paths))
       +:+ newline) σ.
Proof.
  intros Hb Hfit. unfold emit_path.
  destruct (String.eqb_spec (baseURL opt) EmptyString) as [|_]; [done|].
  by rewrite replaceNth_collapse.
Qed.

Lemma emit_paths_no_base opt nodes σ :
  baseURL opt = EmptyString ->
  emit_paths opt nodes σ =
  (wrote σ (Spec.lines (map (replacePlaceholders opt) nodes)), Continue tt).
Proof.
  intros E. revert σ. induction nodes as [|p nodes IH]; intros [out err].
  - unfold wrote. simpl. by rewrite app_nil_r.
  - simpl. unfold mbind, Proc_bind. rewrite emit_path_no_base by done.
    simpl. rewrite IH. unfold wrote. simpl. by rewrite !app_assoc.
Qed.

End Run.

Section Main.

Implicit Types (opt : options) (σ : Streams) (w : World) (d : Document).

Lemma parsePlaceholders_fields opt :
  let opt' := parsePlaceholders opt in
  baseURL opt' = baseURL opt /\ input opt' = input opt /\
  replace opt' = replace opt /\ showBase opt' = showBase opt /\
  placeholderArgs opt' = placeholderArgs opt.
Proof. apply foldl_parsePlaceholder_fields. Qed.

Lemma load_delivers w opt d σ :
  delivers w (input opt) d -> load w opt σ = (σ, Continue (Some d)).
Proof.
  unfold delivers, load. destruct (HasPrefix (input opt) "http").
  - by intros ->.
  - by intros (f & -> & ->).
Qed.

Lemma main_body_delivers w opt d σ :
  input opt <> EmptyString -> delivers w (input opt) d ->
  main_body w opt σ = dump (parsePlaceholders opt) d σ.
Proof.
  intros Hi Hd. unfold main_body.
  destruct (parsePlaceholders_fields opt) as (_ & Ei & _).
  unfold mbind, Proc_bind.
  destruct (String.eqb_spec (input (parsePlaceholders opt)) EmptyString)
    as [E|_]; [congruence|].
  simpl. rewrite (load_delivers w _ d); [done|]. by rewrite Ei.
Qed.

Lemma dump_lacks_marker opt d σ :
  Spec.lacks_marker d ->
  dump opt d σ =
  ({| stdout := stdout σ;
      stderr := stderr σ +:+ "Error! Not a WADL file." +:+ newline |},
   Stop (Exited 1)).
Proof.
  unfold Spec.lacks_marker, dump. intros H.
  destruct (application_xmlns d) as [text|]; [|done].
  destruct (Contains text "wadl.dev.java.net") eqn:C; [|done].
  by apply Contains_spec in C.
Qed.

Lemma dump_has_marker opt d σ :
  Spec.has_marker d ->
  dump opt d σ =
  emit_paths
    (set_baseURL
       match resources_base d with
       | Some text => if showBase opt then text else EmptyString
       | None => EmptyString
       end opt)
    (resource_paths d) σ.
Proof.
  intros (text & E & H). unfold dump. rewrite E.
  apply Contains_spec in H. unfold Spec.marker in H. rewrite H. simpl.
  unfold mbind, Proc_bind. simpl.
  destruct (resources_base d); [|done]. by destruct (showBase opt).
Qed.

End Main.

Lemma main_lacks_marker (w : World) (opt : options) (d : Document) :
  input opt <> EmptyString ->
  delivers w (input opt) d ->
  Spec.lacks_marker d ->
  main w opt =
  ({| stdout := EmptyString;
      stderr := "Error! Not a WADL file." +:+ newline |}, Exited 1).
Proof.
  intros Hi Hd Hm. unfold main.
  by rewrite (main_body_delivers _ _ d), dump_lacks_marker.
Qed.

(** C5. When the document that was loaded lacks the WADL namespace marker
    (its [application] element has no [xmlns] attribute, or the attribute's
    text does not contain [wadl.dev.java.net]), the run ends with exit
    status 1, the error stream holds the single line
    [Error! Not a WADL file.] and nothing was written to standard output. *)
Theorem not_wadl_fails (w : World) (opt : options) (d : Document) :
  input opt <> EmptyString ->
  delivers w (input opt) d ->
  Spec.lacks_marker d ->
  main w opt =
  ({| stdout := EmptyString;
      stderr := "Error! Not a WADL file." +:+ newline |}, Exited 1).
Proof. apply main_lacks_marker. Qed.

Lemma not_wadl_fails_witness :
  let w := Sample.local_world (Some Sample.not_wadl) in
  let opt := parsed_flags "api.xml" "" true ["id=1"] in
  main w opt =
  ({| stdout := EmptyString;
      stderr := "Error! Not a WADL file." +:+ newline |}, Exited 1).
Proof.
  intros w opt. apply (not_wadl_fails w opt Sample.not_wadl).
  - discriminate.
  - exists tt. split; reflexivity.
  - intros H%Contains_spec. vm_compute in H. discriminate.
Defined.

Lemma has_marker_wadl base paths : Spec.has_marker (Sample.wadl base paths).
Proof.
  eexists. split; [reflexivity|]. apply Contains_spec. reflexivity.
Qed.

Lemma main_no_base w opt d :
  input opt <> EmptyString -> delivers w (input opt) d -> Spec.has_marker d ->
  resources_base d = None \/ showBase opt = false
  \/ resources_base d = Some EmptyString ->
  main w opt =
  ({| stdout :=
        Spec.lines (map (replacePlaceholders (parsePlaceholders opt))
                      (resource_paths d));
      stderr := EmptyString |}, Exited 0).
Proof.
  intros Hi Hd Hm Hb. unfold main.
  rewrite (main_body_delivers _ _ d), dump_has_marker by done.
  rewrite emit_paths_no_base; [done|]. simpl.
  destruct (parsePlaceholders_fields opt) as (_ & _ & _ & -> & _).
  destruct Hb as [->|[->| ->]]; [done| |].
  - by destruct (resources_base d).
  - by destruct (showBase opt).
Qed.

(** C7. With an empty Base URL (no [base] attribute, or base inclusion not
    requested) the composed string is the relative path itself and the
    collapse rule is not applied: every emitted line is the templated
    relative path, whatever slashes it contains.  In particular a document
    with base [http://h.tld] and path [/a], run without [--show-base],
    prints [/a]. *)
Theorem empty_base_no_collapse (w : World) (opt : options) (d : Document) :
  input opt <> EmptyString ->
  delivers w (input opt) d ->
  Spec.has_marker d ->
  resources_base d = None \/ showBase opt = false ->
  main w opt =
    ({| stdout :=
          Spec.lines (map (replacePlaceholders (parsePlaceholders opt))
                        (resource_paths d));
        stderr := EmptyString |}, Exited 0) /\
  (forall (o : options) (paths : string) (σ : Streams),
     baseURL o = EmptyString ->
     baseURL o +:+ paths = paths /\
     emit_path o paths σ =
     Print_stdout (replacePlaceholders o paths +:+ newline) σ) /\
  (resources_base d = Some "http://h.tld" -> resource_paths d = ["/a"] ->
   showBase opt = false ->
   main w opt =
   ({| stdout := "/a" +:+ newline; stderr := EmptyString |}, Exited 0)).
Proof.
  intros Hi Hd Hm Hb.
  assert (E := main_no_base w opt d Hi Hd Hm).
  split; [apply E; tauto|]. split.
  - intros o paths σ Eo. split; [by rewrite Eo|]. by apply emit_path_no_base.
  - intros _ Ep _. rewrite E by tauto. by rewrite Ep.
Qed.

Lemma empty_base_no_collapse_witness :
  let d := Sample.wadl (Some "http://h.tld") ["/a"; "//x//y//{id}"] in
  let w := Sample.local_world (Some d) in
  let opt := parsed_flags "api.wadl" "" false ["id=7"] in
  main w opt =
  ({| stdout := "/a" +:+ newline +:+ "//x//y//7" +:+ newline;
      stderr := EmptyString |}, Exited 0).
Proof.
  intros d w opt.
  refine (proj1 (empty_base_no_collapse w opt d _ _ _ _)).
  - discriminate.
  - exists tt. split; reflexivity.
  - apply has_marker_wadl.
  - right. reflexivity.
Defined.

Lemma classic_marker d : Spec.has_marker d \/ Spec.lacks_marker d.
Proof.
  unfold Spec.has_marker, Spec.lacks_marker.
  destruct (application_xmlns d) as [text|]; [|by right].
  destruct (Contains text Spec.marker) eqn:C.
  - left. exists text. split; [done|]. by apply Contains_spec.
  - right. intros H%Contains_spec. congruence.
Qed.

(** C10. When the [base] attribute is present but empty, the run with
    [--show-base] prints exactly what the run without it prints: the
    effective Base URL is the empty string in both, so no prefix is added
    and the collapse rule is not applied. *)
Theorem empty_declared_base (w : World) (opt : options) (d : Document) :
  delivers w (input opt) d ->
  resources_base d = Some EmptyString ->
  main w (set_showBase true opt) = main w (set_showBase false opt) /\
  (input opt <> EmptyString -> Spec.has_marker d ->
   main w (set_showBase true opt) =
   ({| stdout :=
         Spec.lines (map (replacePlaceholders (parsePlaceholders opt))
                       (resource_paths d));
       stderr := EmptyString |}, Exited 0)).
Proof.
  intros Hd Hb.
  assert (Hp : forall b paths,
             replacePlaceholders (parsePlaceholders (set_showBase b opt)) paths
             = replacePlaceholders (parsePlaceholders opt) paths).
  { intros b paths. unfold replacePlaceholders, Regexp.ReplaceAllStringFunc.
    apply replaceAll_ext. intros m _. unfold placeholder_value.
    destruct (parsePlaceholders_fields (set_showBase b opt))
      as (_ & _ & -> & _).
    destruct (parsePlaceholders_fields opt) as (_ & _ & -> & _). simpl.
    assert (placeholders (parsePlaceholders (set_showBase b opt))
            = placeholders (parsePlaceholders opt)) as ->; [|done].
    apply map_eq. intros name. unfold parsePlaceholders.
    by rewrite !foldl_parsePlaceholder_lookup. }
  assert (Hrun : forall b, input opt <> EmptyString -> Spec.has_marker d ->
             main w (set_showBase b opt) =
             ({| stdout :=
                   Spec.lines (map (replacePlaceholders (parsePlaceholders opt))
                                 (resource_paths d));
                 stderr := EmptyString |}, Exited 0)).
  { intros b Hi Hm. rewrite (main_no_base w _ d); try done; [|by auto].
    do 3 f_equal. apply map_ext. apply Hp. }
  split; [|by apply Hrun].
  destruct (String.eqb_spec (input opt) EmptyString) as [Ei|Hi].
  - unfold main, main_body, mbind, Proc_bind.
    destruct (parsePlaceholders_fields (set_showBase true opt))
      as (_ & -> & _).
    destruct (parsePlaceholders_fields (set_showBase false opt))
      as (_ & -> & _).
    simpl. by rewrite Ei.
  - destruct (classic_marker d) as [Hm|Hm].
    + by rewrite !Hrun.
    + by rewrite !(main_lacks_marker w _ d).
Qed.

Lemma empty_declared_base_witness :
  let d := Sample.wadl (Some EmptyString) ["/a//b"; "/c/{id}"] in
  let w := Sample.local_world (Some d) in
  let opt := parsed_flags "api.wadl" "" false ["id=7"] in
  main w (set_showBase true opt) = main w (set_showBase false opt) /\
  (input opt <> EmptyString -> Spec.has_marker d ->
   main w (set_showBase true opt) =
   ({| stdout := "/a//b" +:+ newline +:+ "/c/7" +:+ newline;
       stderr := EmptyString |}, Exited 0)).
Proof.
  intros d w opt. apply (empty_declared_base w opt d).
  - exists tt. split; reflexivity.
  - reflexivity.
Defined.

(** C2 (as amended). For a non-empty Base URL the collapse rule is applied
    to the concatenation base + path after placeholder substitution: the
    emitted string is that string with its second occurrence of [//]
    (the first one found when the search resumes right after the first
    occurrence) replaced by a single [/], and that string unchanged when it
    has fewer than two such occurrences.  When the substitution leaves base + path as it
    is, this is the Path Composer's string of the specification. *)
Theorem collapse_after_substitution
  (opt : options) (paths s : string) (σ : Streams) :
  baseURL opt <> EmptyString ->
  s = replacePlaceholders opt (baseURL opt +:+ paths) ->
  len s <= max_int ->
  replaceNth s "//" "/" 2 = Ret (Spec.collapse_second s) /\
  emit_path opt paths σ =
    Print_stdout (Spec.collapse_second s +:+ newline) σ /\
  (forall k : nat,
     Spec.second_separator s k ->
     Spec.collapse_second s = take k s +:+ "/" +:+ drop (k + 2) s) /\
  ((forall k : nat, ~ Spec.second_separator s k) ->
   Spec.collapse_second s = s) /\
  ((List.length (Spec.occurrences "//" O O s) < 2)%nat ->
   Spec.collapse_second s = s) /\
  (s = baseURL opt +:+ paths ->
   emit_path opt paths σ =
   Print_stdout (Spec.path_composer (baseURL opt) paths +:+ newline) σ).
Proof.
  intros Hb -> Hfit.
  assert (Hemit := emit_path_base opt paths σ Hb Hfit).
  split; [by apply replaceNth_collapse|]. split; [done|].
  split; [apply collapse_second_spec|]. split; [apply collapse_second_spec|].
  split; [apply collapse_second_few|].
  intros E. rewrite Hemit, E. by destruct (baseURL opt).
Qed.

Lemma collapse_after_substitution_witness :
  let opt :=
    set_baseURL "http://h.tld"
      (parsePlaceholders (parsed_flags "api.wadl" "//evil.com" true [])) in
  let s := "http://h.tld/go///evil.com" in
  replaceNth s "//" "/" 2 = Ret "http://h.tld/go//evil.com" /\
  emit_path opt "/go/{url}" Sample.no_output =
    Print_stdout ("http://h.tld/go//evil.com" +:+ newline) Sample.no_output /\
  (forall k : nat,
     Spec.second_separator s k ->
     Spec.collapse_second s = take k s +:+ "/" +:+ drop (k + 2) s) /\
  ((forall k : nat, ~ Spec.second_separator s k) ->
   Spec.collapse_second s = s) /\
  ((List.length (Spec.occurrences "//" O O s) < 2)%nat ->
   Spec.collapse_second s = s) /\
  (s = baseURL opt +:+ "/go/{url}" ->
   emit_path opt "/go/{url}" Sample.no_output =
   Print_stdout (Spec.path_composer (baseURL opt) "/go/{url}" +:+ newline)
     Sample.no_output).
Proof.
  intros opt s.
  apply (collapse_after_substitution opt "/go/{url}" s Sample.no_output).
  - discriminate.
  - reflexivity.
  - vm_compute. discriminate.
Defined.

(** C2 (as stated) fails: under the base [http://h.tld] with
    [-r //evil.com], the literal concatenation [http://h.tld/go/{url}] of
    the base and the path [/go/{url}] has a single occurrence of [//] and
    would be left unchanged, to be rendered as [http://h.tld/go///evil.com].
    The program prints [http://h.tld/go//evil.com]: the rule acts on the
    substituted string, whose second occurrence lies in the value put in
    for [{url}]. *)
Lemma collapse_of_literal_concatenation_refuted :
  let flags := parsed_flags "api.wadl" "//evil.com" true [] in
  let opt := set_baseURL "http://h.tld" (parsePlaceholders flags) in
  let d := Sample.wadl (Some "http://h.tld") ["/go/{url}"] in
  Spec.occurrences "//" O O (baseURL opt +:+ "/go/{url}") = [5%nat] /\
  Spec.path_composer (baseURL opt) "/go/{url}" = "http://h.tld/go/{url}" /\
  replacePlaceholders opt (Spec.path_composer (baseURL opt) "/go/{url}") =
    "http://h.tld/go///evil.com" /\
  emit_path opt "/go/{url}" Sample.no_output =
    Print_stdout ("http://h.tld/go//evil.com" +:+ newline) Sample.no_output /\
  emit_path opt "/go/{url}" Sample.no_output <>
    Print_stdout
      (replacePlaceholders opt (Spec.path_composer (baseURL opt) "/go/{url}")
         +:+ newline) Sample.no_output /\
  main (Sample.local_world (Some d)) flags =
    ({| stdout := "http://h.tld/go//evil.com" +:+ newline;
        stderr := EmptyString |}, Exited 0).
Proof.
  intros flags opt d. repeat split; try reflexivity.
  vm_compute. discriminate.
Qed.

(** The example of the specification: the join of [http://h.tld/] and
    [/res/{id}], once templated, has its second [//] at the join. *)
Lemma example_join_rendered opt :
  baseURL opt = "http://h.tld/" ->
  replacePlaceholders opt (baseURL opt +:+ "/res/{id}") =
    "http://h.tld//res/" +:+ Spec.resolve opt "id" /\
  Spec.collapse_second ("http://h.tld//res/" +:+ Spec.resolve opt "id") =
    "http://h.tld/res/" +:+ Spec.resolve opt "id".
Proof.
  intros ->. split.
  - change ("http://h.tld/" +:+ "/res/{id}")
      with ("http://h.tld//res/" +:+ Spec.token "id" +:+ EmptyString).
    rewrite replacePlaceholders_around_token.
    + change (replacePlaceholders opt EmptyString) with EmptyString.
      rewrite app_nil_r. reflexivity.
    + split; [discriminate|]. simpl. repeat split; discriminate.
  - generalize (Spec.resolve opt "id"). intros v. reflexivity.
Qed.

(** C1 (as amended). For a resource path rendered with a non-empty Base
    URL, placeholders are substituted in the literal concatenation
    base + path first, and the second-occurrence collapse is applied to the
    substituted string afterwards.  For base [http://h.tld/] and path
    [/res/{id}] the string handed to the Template Renderer is
    [http://h.tld//res/{id}], and the emitted line is [http://h.tld/res/]
    followed by the value substituted for [{id}]. *)
Theorem substitution_before_collapse
  (opt : options) (paths : string) (σ : Streams) :
  baseURL opt <> EmptyString ->
  len (replacePlaceholders opt (baseURL opt +:+ paths)) <= max_int ->
  emit_path opt paths σ =
    Print_stdout
      (Spec.collapse_second (replacePlaceholders opt (baseURL opt +:+ paths))
         +:+ newline) σ /\
  (baseURL opt = "http://h.tld/" -> paths = "/res/{id}" ->
   baseURL opt +:+ paths = "http://h.tld//res/{id}" /\
   emit_path opt paths σ =
   Print_stdout ("http://h.tld/res/" +:+ Spec.resolve opt "id" +:+ newline) σ).
Proof.
  intros Hb Hfit. split; [by apply emit_path_base|].
  intros E ->. split; [by rewrite E|].
  rewrite emit_path_base by done.
  destruct (example_join_rendered opt E) as [-> ->].
  by rewrite app_assoc.
Qed.

Lemma substitution_before_collapse_witness :
  let opt :=
    set_baseURL "http://h.tld/"
      (parsePlaceholders (parsed_flags "api.wadl" "" true ["id=7"])) in
  emit_path opt "/res/{id}" Sample.no_output =
    Print_stdout ("http://h.tld/res/7" +:+ newline) Sample.no_output /\
  (baseURL opt = "http://h.tld/" -> "/res/{id}" = "/res/{id}" ->
   baseURL opt +:+ "/res/{id}" = "http://h.tld//res/{id}" /\
   emit_path opt "/res/{id}" Sample.no_output =
   Print_stdout ("http://h.tld/res/" +:+ Spec.resolve opt "id" +:+ newline)
     Sample.no_output).
Proof.
  intros opt.
  apply (substitution_before_collapse opt "/res/{id}" Sample.no_output).
  - discriminate.
  - vm_compute. discriminate.
Defined.

(** C1 (as stated) fails: with [-p a=] the path [{a}/x] under the base
    [http://h.tld/] is printed as [http://h.tld/x], the collapse acting on
    the double slash that the substitution produced, whereas collapsing
    before substituting gives [http://h.tld//x]; and the string that reaches
    the Template Renderer for the path [/res/{id}] still has both slashes at
    the join. *)
Lemma collapse_before_substitution_refuted :
  let opt :=
    set_baseURL "http://h.tld/"
      (parsePlaceholders (parsed_flags "api.wadl" "" true ["a="])) in
  let d := Sample.wadl (Some "http://h.tld/") ["{a}/x"] in
  emit_path opt "{a}/x" Sample.no_output <>
    Print_stdout (Spec.composed_then_rendered opt "{a}/x" +:+ newline)
      Sample.no_output /\
  Spec.composed_then_rendered opt "{a}/x" = "http://h.tld//x" /\
  main (Sample.local_world (Some d)) (parsed_flags "api.wadl" "" true ["a="]) =
    ({| stdout := "http://h.tld/x" +:+ newline; stderr := EmptyString |},
     Exited 0) /\
  baseURL opt +:+ "/res/{id}" = "http://h.tld//res/{id}" /\
  baseURL opt +:+ "/res/{id}" <> Spec.path_composer (baseURL opt) "/res/{id}".
Proof.
  intros opt d. repeat split; try reflexivity.
  - vm_compute. discriminate.
  - vm_compute. discriminate.
Qed.

(** ** Values that no path can ask for *)

Section SameValues.

Variables o1 o2 : options.
Hypothesis same : same_values o1 o2.

Lemma replacePlaceholders_same path :
  replacePlaceholders o1 path = replacePlaceholders o2 path.
Proof.
  destruct same as (_ & _ & Hr & _ & Hp).
  unfold replacePlaceholders, Regexp.ReplaceAllStringFunc.
  apply replaceAll_ext. intros m (name & [Hne _] & ->).
  rewrite !placeholder_value_token. unfold Spec.resolve.
  by rewrite Hp, Hr.
Qed.

Lemma emit_path_same paths σ : emit_path o1 paths σ = emit_path o2 paths σ.
Proof.
  unfold emit_path. destruct same as (Hb & _).
  by rewrite Hb, replacePlaceholders_same.
Qed.

Lemma emit_paths_same nodes σ :
  emit_paths o1 nodes σ = emit_paths o2 nodes σ.
Proof.
  revert σ. induction nodes as [|p nodes IH]; intros σ; [done|].
  simpl. unfold mbind, Proc_bind. rewrite emit_path_same.
  destruct (emit_path o2 p σ) as [σ' [[]|t]]; [apply IH|done].
Qed.

End SameValues.

Lemma same_values_set_baseURL o1 o2 base :
  same_values o1 o2 -> same_values (set_baseURL base o1) (set_baseURL base o2).
Proof. intros (_ & ? & ? & ? & ?). by repeat split. Qed.

Lemma dump_same o1 o2 d σ :
  same_values o1 o2 -> dump o1 d σ = dump o2 d σ.
Proof.
  intros H. unfold dump, mbind, Proc_bind.
  destruct (application_xmlns d) as [xmlns|]; [|done].
  destruct (Contains xmlns "wadl.dev.java.net"); [|done]. simpl.
  pose proof H as (_ & _ & _ & Hs & _). rewrite Hs.
  apply emit_paths_same.
  destruct (resources_base d) as [text|]; [destruct (showBase o2)|];
    by apply same_values_set_baseURL.
Qed.

Lemma main_same w o1 o2 :
  same_values (parsePlaceholders o1) (parsePlaceholders o2) ->
  main w o1 = main w o2.
Proof.
  intros H. unfold main, main_body, mbind, Proc_bind.
  pose proof H as (_ & Hi & _). unfold load. rewrite Hi.
  destruct (String.eqb (input (parsePlaceholders o2)) EmptyString); [done|].
  simpl.
  destruct (HasPrefix (input (parsePlaceholders o2)) "http").
  - simpl. destruct (LoadURL w _) as [d|]; [|done]. by rewrite (dump_same _ _ _ _ H).
  - destruct (Open w _) as [f|]; [|done]. simpl.
    destruct (Parse w f) as [d|]; [|done]. by rewrite (dump_same _ _ _ _ H).
Qed.

(** C9. An argument with an empty name part, such as [=value], is taken
    into the mapping under the empty key, and it cannot affect a rendered
    path: the pattern only matches tokens whose name has at least one byte,
    so the empty key is never looked up.  Templating with and without the
    entry agree on every path, and so do whole runs of the program with and
    without the argument. *)
Theorem empty_name_is_inert :
  (forall (opt : options) (value : string),
     parsePlaceholder opt ("=" +:+ value) =
     set_placeholders (<[EmptyString := value]> (placeholders opt)) opt) /\
  (forall (opt : options) (value path : string),
     replacePlaceholders (parsePlaceholder opt ("=" +:+ value)) path =
     replacePlaceholders opt path) /\
  (forall (m : string), Spec.is_token m ->
     drop 1 (take (String.length m - 1) m) <> EmptyString) /\
  (forall (w : World) (i r : string) (b : bool) (pre post : list string)
          (value : string),
     main w (parsed_flags i r b (pre ++ ("=" +:+ value) :: post)) =
     main w (parsed_flags i r b (pre ++ post))).
Proof.
  assert (Hcut : forall value, Spec.cut ("=" +:+ value) = Some (EmptyString, value))
    by done.
  split; [|split; [|split]].
  - intros opt value. by rewrite parsePlaceholder_cut, Hcut.
  - intros opt value path. rewrite parsePlaceholder_cut, Hcut.
    apply replacePlaceholders_same. repeat split; try done.
    intros name Hne. simpl. by rewrite lookup_insert_ne.
  - intros m (name & [Hne _] & ->). by rewrite token_name.
  - intros w i r b pre post value. apply main_same. unfold same_values.
    destruct (parsePlaceholders_fields
                (parsed_flags i r b (pre ++ ("=" +:+ value) :: post)))
      as (-> & -> & -> & -> & _).
    destruct (parsePlaceholders_fields (parsed_flags i r b (pre ++ post)))
      as (-> & -> & -> & -> & _).
    split_and!; try done. intros name Hne.
    rewrite !parsePlaceholders_lookup. apply last_binding_skip.
    intros n v. rewrite Hcut. by intros [= <- <-].
Qed.

(** * Further properties of the program *)

(** ** The fatal paths of [main] *)

Lemma main_input_check w opt :
  input opt = EmptyString ->
  main w opt =
  ({| stdout := EmptyString;
      stderr := error_line "Flag -i is required, use -h flag for help." |},
   Exited 1).
Proof.
  intros E. unfold main, main_body, mbind, Proc_bind.
  destruct (parsePlaceholders_fields opt) as (_ & -> & _).
  by rewrite E.
Qed.



Lemma main_after_input_check w opt σ :
  input opt <> EmptyString ->
  main_body w opt σ =
  (wadl ← load w (parsePlaceholders opt);
   match wadl with
   | None => errorExit "Can't parse WADL file."
   | Some wadl => dump (parsePlaceholders opt) wadl
   end) σ.
Proof.
  intros Hi. unfold main_body, mbind, Proc_bind.
  destruct (parsePlaceholders_fields opt) as (_ & Ei & _).
  destruct (String.eqb_spec (input (parsePlaceholders opt)) EmptyString)
    as [E|_]; [congruence|done].
Qed.

(** X2. A local input that cannot be opened ends the run with status 1 and
    the one line [Error! Can't open '<input>' file.], the input name quoted
    as given; nothing is printed. *)
Theorem unopenable_file_fails (w : World) (opt : options) :
  input opt <> EmptyString ->
  HasPrefix (input opt) "http" = false ->
  Open w (input opt) = None ->
  main w opt =
  ({| stdout := EmptyString;
      stderr := error_line ("Can't open '" +:+ input opt +:+ "' file.") |},
   Exited 1).
Proof.
  intros Hi Hp Ho. unfold main. rewrite main_after_input_check by done.
  unfold mbind, Proc_bind, load.
  destruct (parsePlaceholders_fields opt) as (_ & -> & _).
  by rewrite Hp, Ho.
Qed.

Lemma unopenable_file_fails_witness :
  let w := {| File := unit; LoadURL := fun _ => None;
              Open := fun _ => None; Parse := fun _ => None |} in
  main w (parsed_flags "missing.wadl" "" false []) =
  ({| stdout := EmptyString;
      stderr := "Error! Can't open 'missing.wadl' file." +:+ newline |},
   Exited 1).
Proof.
  intros w.
  apply (unopenable_file_fails w (parsed_flags "missing.wadl" "" false []));
    [discriminate|reflexivity|reflexivity].
Defined.

(** X3. When the document comes back nil (the fetch of an [http] input
    failed, or the opened local file did not parse) the run ends with
    status 1 and the one line [Error! Can't parse WADL file.]; both ways of
    loading fail alike, and nothing is printed. *)
Theorem unparsable_document_fails (w : World) (opt : options) :
  input opt <> EmptyString ->
  (if HasPrefix (input opt) "http" then LoadURL w (input opt) = None
   else exists f : File w, Open w (input opt) = Some f /\ Parse w f = None) ->
  main w opt =
  ({| stdout := EmptyString;
      stderr := error_line "Can't parse WADL file." |}, Exited 1).
Proof.
  intros Hi Hl. unfold main. rewrite main_after_input_check by done.
  unfold mbind, Proc_bind, load.
  destruct (parsePlaceholders_fields opt) as (_ & -> & _).
  destruct (HasPrefix (input opt) "http").
  - by rewrite Hl.
  - destruct Hl as (f & -> & ->). done.
Qed.

Lemma unparsable_document_fails_witness :
  main (Sample.local_world None)
    (parsed_flags "http://h.tld/application.wadl" "" true []) =
  ({| stdout := EmptyString;
      stderr := error_line "Can't parse WADL file." |}, Exited 1) /\
  main (Sample.local_world None) (parsed_flags "broken.xml" "" true []) =
  ({| stdout := EmptyString;
      stderr := error_line "Can't parse WADL file." |}, Exited 1).
Proof.
  split.
  - apply (unparsable_document_fails (Sample.local_world None)
             (parsed_flags "http://h.tld/application.wadl" "" true []));
      [discriminate|reflexivity].
  - apply (unparsable_document_fails (Sample.local_world None)
             (parsed_flags "broken.xml" "" true []));
      [discriminate|]. exists tt. split; reflexivity.
Defined.

(** X4. An input that starts with [http] is only ever fetched: the run does
    not depend on what opening or parsing local files would give.  Any other
    input is only ever opened and parsed: the run does not depend on what a
    fetch would give. *)
Theorem input_selects_one_loader (opt : options) :
  (HasPrefix (input opt) "http" = true ->
   forall w w' : World,
     LoadURL w (input opt) = LoadURL w' (input opt) ->
     main w opt = main w' opt) /\
  (HasPrefix (input opt) "http" = false ->
   forall (w : World) (fetch : string -> option Document),
     main (with_LoadURL fetch w) opt = main w opt).
Proof.
  destruct (parsePlaceholders_fields opt) as (_ & Ei & _).
  split.
  - intros Hp w w' E. unfold main, main_body, mbind, Proc_bind, load.
    rewrite Ei, Hp, E. done.
  - intros Hp w fetch. unfold main, main_body, mbind, Proc_bind, load.
    rewrite Ei, Hp. done.
Qed.

(** ** What a run can leave behind *)







(** ** The output of a successful run *)

Lemma emit_paths_base opt nodes σ :
  baseURL opt <> EmptyString ->
  (forall p, p ∈ nodes ->
     len (replacePlaceholders opt (baseURL opt +:+ p)) <= max_int) ->
  emit_paths opt nodes σ =
  (wrote σ
     (Spec.lines
        (map (fun p => Spec.collapse_second
                         (replacePlaceholders opt (baseURL opt +:+ p)))
           nodes)),
   Continue tt).
Proof.
  intros Hb. revert σ. induction nodes as [|p nodes IH]; intros [out err] Hfit.
  - unfold wrote. simpl. by rewrite app_nil_r.
  - simpl. unfold mbind, Proc_bind.
    rewrite emit_path_base; [|done|apply Hfit; left]. simpl.
    rewrite IH by (intros q Hq; apply Hfit; by right).
    unfold wrote. simpl. by rewrite !app_assoc.
Qed.

(** X6. A run with [--show-base] on a WADL document whose base is not
    empty prints one line per [resource/@path] node, in the order of the
    nodes and without dropping repeated paths: the base joined to the path,
    templated, with the second [//] collapsed.  It exits with 0 and writes
    nothing to the error stream. *)
Theorem run_with_base_prints_every_path
  (w : World) (opt : options) (d : Document) (base : string) :
  input opt <> EmptyString ->
  delivers w (input opt) d ->
  Spec.has_marker d ->
  resources_base d = Some base ->
  base <> EmptyString ->
  showBase opt = true ->
  (forall p : string,
     p ∈ resource_paths d ->
     len (replacePlaceholders (parsePlaceholders opt) (base +:+ p)) <= max_int) ->
  main w opt =
  ({| stdout :=
        Spec.lines
          (map (fun p => Spec.collapse_second
                           (replacePlaceholders (parsePlaceholders opt)
                              (base +:+ p)))
             (resource_paths d));
      stderr := EmptyString |}, Exited 0).
Proof.
  intros Hi Hd Hm Hb Hne Hs Hfit. unfold main.
  rewrite (main_body_delivers _ _ d), dump_has_marker by done.
  destruct (parsePlaceholders_fields opt) as (_ & _ & _ & -> & _).
  rewrite Hb, Hs. by rewrite emit_paths_base.
Qed.

Lemma run_with_base_prints_every_path_witness :
  let d := Sample.wadl (Some "http://h.tld/api/")
             ["/users/{id}"; "orders"; "/users/{id}"] in
  main (Sample.local_world (Some d))
    (parsed_flags "api.wadl" "" true ["id=7"]) =
  ({| stdout :=
        "http://h.tld/api/users/7" +:+ newline +:+
        "http://h.tld/api/orders" +:+ newline +:+
        "http://h.tld/api/users/7" +:+ newline;
      stderr := EmptyString |}, Exited 0).
Proof.
  intros d.
  apply (run_with_base_prints_every_path (Sample.local_world (Some d))
           (parsed_flags "api.wadl" "" true ["id=7"]) d "http://h.tld/api/").
  - discriminate.
  - exists tt. split; reflexivity.
  - apply has_marker_wadl.
  - reflexivity.
  - discriminate.
  - reflexivity.
  - intros p Hp. simpl in Hp.
    repeat (apply elem_of_cons in Hp as [->|Hp]; [vm_compute; discriminate|]).
    by apply elem_of_nil in Hp.
Defined.

(** X7. Without [--show-base] the [base] attribute of the document plays no
    part: two documents with the same [xmlns] text and the same paths give
    the same run, whatever their bases. *)
Theorem hidden_base_is_ignored
  (w1 w2 : World) (opt : options) (d1 d2 : Document) :
  showBase opt = false ->
  delivers w1 (input opt) d1 ->
  delivers w2 (input opt) d2 ->
  application_xmlns d1 = application_xmlns d2 ->
  resource_paths d1 = resource_paths d2 ->
  main w1 opt = main w2 opt.
Proof.
  intros Hs H1 H2 Ex Ep.
  destruct (String.eqb_spec (input opt) EmptyString) as [E|Hi].
  { by rewrite !main_input_check. }
  destruct (classic_marker d1) as [Hm|Hm].
  - assert (Hm2 : Spec.has_marker d2).
    { destruct Hm as (text & E & Ho). exists text. by rewrite <- Ex. }
    rewrite (main_no_base w1 opt d1), (main_no_base w2 opt d2) by auto.
    by rewrite Ep.
  - assert (Hm2 : Spec.lacks_marker d2).
    { unfold Spec.lacks_marker in *. by rewrite <- Ex. }
    by rewrite (main_lacks_marker w1 opt d1), (main_lacks_marker w2 opt d2).
Qed.

Lemma hidden_base_is_ignored_witness :
  main (Sample.local_world (Some (Sample.wadl (Some "http://h.tld/") ["/a"])))
    (parsed_flags "api.wadl" "" false []) =
  main (Sample.local_world (Some (Sample.wadl None ["/a"])))
    (parsed_flags "api.wadl" "" false []).
Proof.
  apply (hidden_base_is_ignored _ _ _
           (Sample.wadl (Some "http://h.tld/") ["/a"])
           (Sample.wadl None ["/a"])).
  - reflexivity.
  - exists tt. split; reflexivity.
  - exists tt. split; reflexivity.
  - reflexivity.
  - reflexivity.
Defined.

(** ** [replaceNth] beyond the separator *)

Lemma replaced_same s old i :
  (i + String.length old <= String.length s)%nat ->
  take (String.length old) (drop i s) = old ->
  replaced s old old (Some i) = s.
Proof.
  intros Hb E. simpl. rewrite <- E at 1.
  rewrite <- drop_drop, take_drop. apply take_drop.
Qed.

(** X8. For a needle that is not empty and [n >= 1], [replaceNth] replaces
    the [n]-th instance of the needle counted by a left-to-right scan that
    resumes right after each instance (so instances that overlap an earlier
    one are not counted); the offset it picks does hold the needle. *)
Theorem replaceNth_nth_occurrence (s old new : string) (n : Z) :
  old <> EmptyString -> 1 <= n -> is_int n -> len s <= max_int ->
  replaceNth s old new n =
    Ret (replaced s old new
           (Spec.occurrences old O O s !! (Z.to_nat n - 1)%nat)) /\
  (forall i : nat,
     Spec.occurrences old O O s !! (Z.to_nat n - 1)%nat = Some i ->
     Spec.occurs_at old s i /\
     replaceNth s old new n =
     Ret (take i s +:+ new +:+ drop (i + String.length old) s)).
Proof.
  intros Hold Hn Hint Hfit.
  assert (E : nth_offset (Z.to_nat n) old s =
              Spec.occurrences old O O s !! (Z.to_nat n - 1)%nat).
  { destruct (Z.to_nat n) as [|k] eqn:K; [lia|].
    rewrite nth_offset_lookup by done. f_equal. lia. }
  rewrite replaceNth_spec, E by done. split; [done|].
  intros i Hi. rewrite Hi. split; [|done].
  rewrite <- E in Hi. apply nth_offset_sound in Hi as [_ Hi].
  unfold Spec.occurs_at. apply prefix_spec.
  exists (drop (String.length old) (drop i s)).
  by rewrite <- Hi at 1; rewrite take_drop.
Qed.

Lemma replaceNth_nth_occurrence_witness :
  replaceNth "aXXXbXXc" "XX" "-" 2 =
    Ret (replaced "aXXXbXXc" "XX" "-"
           (Spec.occurrences "XX" O O "aXXXbXXc" !! (Z.to_nat 2 - 1)%nat)) /\
  (forall i : nat,
     Spec.occurrences "XX" O O "aXXXbXXc" !! (Z.to_nat 2 - 1)%nat = Some i ->
     Spec.occurs_at "XX" "aXXXbXXc" i /\
     replaceNth "aXXXbXXc" "XX" "-" 2 =
     Ret (take i "aXXXbXXc" +:+ "-" +:+ drop (i + String.length "XX") "aXXXbXXc")).
Proof.
  apply (replaceNth_nth_occurrence "aXXXbXXc" "XX" "-" 2).
  - discriminate.
  - lia.
  - unfold is_int, min_int, max_int. lia.
  - vm_compute. discriminate.
Defined.

Example replaceNth_skips_overlap :
  replaceNth "aXXXbXXc" "XX" "-" 2 = Ret "aXXXb-c".
Proof. reflexivity. Qed.

(** X9. With an empty needle and [n >= 1] the search always succeeds at the
    offset it starts from and never advances: the replacement is put in
    front of the string, whatever [n] is. *)
Theorem replaceNth_empty_needle_prepends (s new : string) (n : Z) :
  1 <= n -> is_int n -> len s <= max_int ->
  replaceNth s EmptyString new n = Ret (new +:+ s).
Proof.
  intros Hn Hint Hfit. rewrite replaceNth_spec by done.
  assert (F : forall t, find EmptyString t = Some O).
  { intros [|c t]; unfold find; by rewrite prefix_nil. }
  assert (E : forall k t, nth_offset (S k) EmptyString t = Some O).
  { induction k as [|k IH]; intros t.
    - unfold nth_offset. by rewrite F.
    - change (nth_offset (S (S k)) EmptyString t) with
        (match find EmptyString t with
         | None => None
         | Some x =>
             (fun r => (x + String.length EmptyString + r)%nat)
               <$> nth_offset (S k) EmptyString
                     (drop (x + String.length EmptyString) t)
         end).
      by rewrite F, IH. }
  destruct (Z.to_nat n) as [|k] eqn:K; [lia|].
  rewrite E. unfold replaced. by rewrite take_0, drop_0.
Qed.

Lemma replaceNth_empty_needle_prepends_witness :
  replaceNth "abc" EmptyString "X" 5 = Ret ("X" +:+ "abc").
Proof.
  apply (replaceNth_empty_needle_prepends "abc" "X" 5).
  - lia.
  - unfold is_int, min_int, max_int. lia.
  - vm_compute. discriminate.
Defined.

(** X10. Replacing an instance of the needle by the needle itself gives the
    string back, for every [n]. *)
Theorem replaceNth_by_itself (s old : string) (n : Z) :
  is_int n -> len s <= max_int ->
  replaceNth s old old n = Ret s.
Proof.
  intros Hint Hfit. rewrite replaceNth_spec by done.
  destruct (nth_offset (Z.to_nat n) old s) as [i|] eqn:N; [|done].
  apply nth_offset_sound in N as [N1 N2]. by rewrite replaced_same.
Qed.

Lemma replaceNth_by_itself_witness :
  replaceNth "a//b//c" "//" "//" 2 = Ret "a//b//c".
Proof.
  apply (replaceNth_by_itself "a//b//c" "//" 2).
  - unfold is_int, min_int, max_int. lia.
  - vm_compute. discriminate.
Defined.

(** X11. The result of [replaceNth] is the string itself or differs from it
    in length by exactly the difference between replacement and needle; the
    collapse [replaceNth(path, "//", "/", 2)] therefore removes one byte or
    none. *)
Theorem replaceNth_length (s old new r : string) (n : Z) :
  is_int n -> len s <= max_int ->
  replaceNth s old new n = Ret r ->
  (r = s \/ len r = len s - len old + len new) /\
  (old = "//" -> new = "/" -> len r = len s \/ len r = len s - 1).
Proof.
  intros Hint Hfit. rewrite replaceNth_spec by done. intros [= <-].
  assert (H : replaced s old new (nth_offset (Z.to_nat n) old s) = s \/
              len (replaced s old new (nth_offset (Z.to_nat n) old s))
              = len s - len old + len new).
  { destruct (nth_offset (Z.to_nat n) old s) as [i|] eqn:N; [|by left].
    right. apply nth_offset_sound in N as [N1 _]. simpl. unfold len.
    rewrite !length_app, length_take, length_drop. lia. }
  split; [done|]. intros -> ->.
  destruct H as [->|H]; [by left|right]. rewrite H. unfold len. simpl. lia.
Qed.

Lemma replaceNth_length_witness :
  ("http://h.tld/res" = "http://h.tld//res" \/
   len "http://h.tld/res" = len "http://h.tld//res" - len "//" + len "/") /\
  ("//" = "//" -> "/" = "/" ->
   len "http://h.tld/res" = len "http://h.tld//res" \/
   len "http://h.tld/res" = len "http://h.tld//res" - 1).
Proof.
  apply (replaceNth_length "http://h.tld//res" "//" "/" "http://h.tld/res" 2).
  - unfold is_int, min_int, max_int. lia.
  - vm_compute. discriminate.
  - reflexivity.
Defined.

(** ** [replacePlaceholders] on what it does not touch *)

Section Untouched.

Import Regexp.

Implicit Types (repl : string -> string) (s t a b : string) (c : ascii).

Lemma has_byte_head c s : has_byte c (String c s).
Proof. by exists EmptyString, s. Qed.

Lemma has_byte_tail c d s : has_byte c s -> has_byte c (String d s).
Proof. intros (a & b & ->). by exists (String d a), b. Qed.

Lemma has_byte_app_r c a s : has_byte c s -> has_byte c (a +:+ s).
Proof.
  intros (x & y & ->). exists (a +:+ x), y. by rewrite app_assoc.
Qed.

(** Membership of a byte, in the form that computes. *)
Lemma has_byte_In c s : has_byte c s <-> In c (list_ascii_of_string s).
Proof.
  split.
  - intros (a & b & ->). induction a as [|d a IH]; simpl; auto.
  - induction s as [|d s IH]; simpl; [done|].
    intros [->|H]; [apply has_byte_head|by apply has_byte_tail, IH].
Qed.

Lemma replaceAll_identity k s : replaceAll (fun m => m) k s = drop k s.
Proof.
  revert k. induction s as [|c s IH]; intros [|k]; try done.
  - simpl. destruct (match_here (String c s)) as [n|] eqn:M.
    + apply match_here_bounds in M. destruct n as [|n]; [lia|].
      rewrite IH. simpl. by rewrite app_cons, take_drop.
    + by rewrite IH, drop_0.
  - simpl. apply IH.
Qed.

Lemma replaceAll_keeps_prefix repl a b :
  ~ has_byte lbrace a ->
  replaceAll repl O (a +:+ b) = a +:+ replaceAll repl O b.
Proof.
  induction a as [|c a IH]; intros H; [done|].
  rewrite !app_cons.
  rewrite replaceAll_no_match.
  - f_equal. apply IH. intros Ha. by apply H, has_byte_tail.
  - apply match_here_not_lbrace. intros ->. apply H, has_byte_head.
Qed.

Lemma match_here_has_rbrace s n : match_here s = Some n -> has_byte rbrace s.
Proof.
  intros (name & rest & _ & -> & _)%match_here_inv.
  rewrite token_app. exists (String lbrace name), rest.
  by rewrite app_cons.
Qed.

Lemma replaceAll_no_rbrace repl s :
  ~ has_byte rbrace s -> replaceAll repl O s = s.
Proof.
  induction s as [|c s IH]; intros H; [done|].
  rewrite replaceAll_no_match.
  - f_equal. apply IH. intros Hs. by apply H, has_byte_tail.
  - destruct (match_here (String c s)) as [n|] eqn:M; [|done].
    by apply match_here_has_rbrace in M.
Qed.

(** Only the callback's values on the tokens that occur in the string count. *)
Lemma replaceAll_ext_occurring repl1 repl2 k s :
  (forall m, Spec.is_token m -> Spec.occurs m s -> repl1 m = repl2 m) ->
  replaceAll repl1 k s = replaceAll repl2 k s.
Proof.
  revert k. induction s as [|c s IH]; intros k H; [done|].
  assert (IH' : forall k', replaceAll repl1 k' s = replaceAll repl2 k' s).
  { intros k'. apply IH. intros m Hm (a & b & ->). apply H; [done|].
    by exists (String c a), b. }
  simpl. destruct k as [|k]; [|apply IH'].
  destruct (match_here (String c s)) as [n|] eqn:M.
  - rewrite IH'. f_equal. apply H; [apply (match_here_take _ _ M)|].
    exists EmptyString, (drop n (String c s)).
    by rewrite app_nil_l, take_drop.
  - by rewrite IH'.
Qed.

End Untouched.

(** X12. Without any [-p] and without [-r] the Template Renderer changes
    nothing: every path, whatever braces it holds, is returned as it is. *)
Theorem no_configuration_no_change (opt : options) (path : string) :
  placeholders opt = ∅ -> replace opt = EmptyString ->
  replacePlaceholders opt path = path.
Proof.
  intros Hp Hr. unfold replacePlaceholders, Regexp.ReplaceAllStringFunc.
  rewrite (replaceAll_ext _ (fun m => m)).
  - by rewrite replaceAll_identity, drop_0.
  - intros m _. unfold placeholder_value.
    by rewrite Hp, lookup_empty, Hr.
Qed.

Lemma no_configuration_no_change_witness :
  replacePlaceholders (parsePlaceholders (parsed_flags "api.wadl" "" true ["junk"]))
    "/users/{id}/{}/{x{y}}" = "/users/{id}/{}/{x{y}}".
Proof.
  apply (no_configuration_no_change
           (parsePlaceholders (parsed_flags "api.wadl" "" true ["junk"]))
           "/users/{id}/{}/{x{y}}"); reflexivity.
Defined.



(** X14. A path that holds no opening brace, or no closing brace, is
    returned unchanged whatever the options are: an unclosed placeholder is
    no placeholder. *)
Theorem unpaired_braces_are_not_placeholders (opt : options) (path : string) :
  ~ has_byte Regexp.lbrace path \/ ~ has_byte Regexp.rbrace path ->
  replacePlaceholders opt path = path.
Proof.
  unfold replacePlaceholders, Regexp.ReplaceAllStringFunc. intros [H|H].
  - rewrite <- (app_nil_r path) at 1.
    rewrite replaceAll_keeps_prefix by done. by rewrite app_nil_r.
  - by apply replaceAll_no_rbrace.
Qed.

Lemma unpaired_braces_are_not_placeholders_witness :
  replacePlaceholders (parsed_flags "api.wadl" "XXX" true [])
    "/users/{id/orders/{oid" = "/users/{id/orders/{oid".
Proof.
  apply (unpaired_braces_are_not_placeholders
           (parsed_flags "api.wadl" "XXX" true []) "/users/{id/orders/{oid").
  right. rewrite has_byte_In. vm_compute. intuition discriminate.
Defined.

(** X15. A value given for a name can only show where that name is used:
    adding or changing the mapping of [name] leaves the rendering of every
    path in which the token [{name}] does not occur as it was. *)
Theorem unused_placeholder_changes_nothing
  (opt : options) (name value path : string) :
  ~ Spec.occurs (Spec.token name) path ->
  replacePlaceholders
    (set_placeholders (<[name := value]> (placeholders opt)) opt) path =
  replacePlaceholders opt path.
Proof.
  intros H. unfold replacePlaceholders, Regexp.ReplaceAllStringFunc.
  apply replaceAll_ext_occurring. intros m (n & Hv & ->) Ho.
  rewrite !placeholder_value_token. unfold Spec.resolve. simpl.
  destruct (decide (n = name)) as [->|Hne]; [done|].
  by rewrite lookup_insert_ne.
Qed.

Lemma unused_placeholder_changes_nothing_witness :
  let opt := parsed_flags "api.wadl" "" true [] in
  replacePlaceholders
    (set_placeholders (<["oid" := "9"]> (placeholders opt)) opt)
    "/users/{id}/{oid" =
  replacePlaceholders opt "/users/{id}/{oid".
Proof.
  intros opt.
  apply (unused_placeholder_changes_nothing opt "oid" "9" "/users/{id}/{oid").
  intros H. apply Contains_spec in H. vm_compute in H. discriminate.
Defined.

(** ** [parsePlaceholders] as an operation on the options *)

Lemma options_eq (o1 o2 : options) :
  baseURL o1 = baseURL o2 -> input o1 = input o2 -> replace o1 = replace o2 ->
  showBase o1 = showBase o2 -> placeholders o1 = placeholders o2 ->
  placeholderArgs o1 = placeholderArgs o2 -> o1 = o2.
Proof. destruct o1, o2. simpl. by intros -> -> -> -> -> ->. Qed.

Lemma cut_name_has_no_eq p name value :
  Spec.cut p = Some (name, value) -> ~ Spec.occurs Spec.eq_sign name.
Proof.
  intros C (a & b & E). apply cut_sound in C as [-> F].
  assert (H : String.prefix Spec.eq_sign
                (drop (String.length a) (name +:+ Spec.eq_sign +:+ value))
              = false).
  { apply (find_Some_first _ _ _ _ F). rewrite E, !length_app. simpl. lia. }
  rewrite E, app_assoc, drop_app_length, app_assoc, prefix_app in H. done.
Qed.

Lemma cut_iff p name value :
  Spec.cut p = Some (name, value) <->
  p = name +:+ "=" +:+ value /\ ~ Spec.occurs "=" name.
Proof.
  split.
  - intros C. split; [by apply cut_sound in C as [-> _]|].
    by eapply cut_name_has_no_eq.
  - intros [-> H]. by apply cut_first.
Qed.

Lemma last_binding_is_Some name args :
  is_Some (Spec.last_binding name args) <->
  exists p value, p ∈ args /\ Spec.cut p = Some (name, value).
Proof.
  induction args as [|q args IH]; simpl.
  - split; [by intros [? ?]|]. intros (p & v & H%elem_of_nil & _). done.
  - destruct (Spec.last_binding name args) as [v0|] eqn:L.
    + split; [intros _|eauto].
      destruct (proj1 IH) as (p & v & Hp & C); [eauto|].
      exists p, v. split; [by right|done].
    + destruct (Spec.cut q) as [[n v]|] eqn:C.
      * destruct (String.eqb_spec n name) as [->|Hne].
        -- split; [intros _|eauto]. exists q, v. split; [by left|done].
        -- split; [by intros [? ?]|].
           intros (p & v' & [->|Hp]%elem_of_cons & C').
           ++ congruence.
           ++ apply IH. eauto.
      * split; [by intros [? ?]|].
        intros (p & v' & [->|Hp]%elem_of_cons & C').
        -- congruence.
        -- apply IH. eauto.
Qed.

(** X16. [parsePlaceholders] only ever writes entries of
    [opt.placeholders]: the other fields of [opt] are left as they were, no
    key that was in the map is removed, and an entry whose name no argument
    binds keeps its value. *)
Theorem parsePlaceholders_only_adds (opt : options) :
  baseURL (parsePlaceholders opt) = baseURL opt /\
  input (parsePlaceholders opt) = input opt /\
  replace (parsePlaceholders opt) = replace opt /\
  showBase (parsePlaceholders opt) = showBase opt /\
  placeholderArgs (parsePlaceholders opt) = placeholderArgs opt /\
  (forall name : string,
     is_Some (placeholders opt !! name) ->
     is_Some (placeholders (parsePlaceholders opt) !! name)) /\
  (forall name : string,
     (forall value : string,
        name +:+ "=" +:+ value ∉ placeholderArgs opt) ->
     placeholders (parsePlaceholders opt) !! name = placeholders opt !! name).
Proof.
  destruct (parsePlaceholders_fields opt) as (E1 & E2 & E3 & E4 & E5).
  repeat (split; [done|]). unfold parsePlaceholders. split.
  - intros name H. rewrite foldl_parsePlaceholder_lookup.
    by destruct (Spec.last_binding name (placeholderArgs opt)).
  - intros name H. rewrite foldl_parsePlaceholder_lookup.
    destruct (Spec.last_binding name (placeholderArgs opt)) as [v|] eqn:L;
      [|done].
    destruct (proj1 (last_binding_is_Some name (placeholderArgs opt)))
      as (p & value & Hp & C); [by rewrite L|].
    apply cut_iff in C as [-> _]. by destruct (H value).
Qed.

(** X17. Running [parsePlaceholders] a second time changes nothing. *)
Theorem parsePlaceholders_idempotent (opt : options) :
  parsePlaceholders (parsePlaceholders opt) = parsePlaceholders opt.
Proof.
  destruct (parsePlaceholders_fields opt) as (E1 & E2 & E3 & E4 & E5).
  destruct (parsePlaceholders_fields (parsePlaceholders opt))
    as (F1 & F2 & F3 & F4 & F5).
  apply options_eq; try done.
  apply map_eq. intros name. unfold parsePlaceholders at 1.
  rewrite foldl_parsePlaceholder_lookup, E5.
  unfold parsePlaceholders. rewrite foldl_parsePlaceholder_lookup.
  by destruct (Spec.last_binding name (placeholderArgs opt)).
Qed.

(** X18. The keys of the map built from the command line are exactly the
    name parts of the arguments: [name] is a key if and only if some
    argument is [name=value] with no [=] inside [name]. *)
Theorem placeholder_keys_are_argument_names
  (i r : string) (b : bool) (args : list string) (name : string) :
  is_Some (placeholders (parsePlaceholders (parsed_flags i r b args)) !! name)
  <->
  (~ Spec.occurs "=" name /\
   exists value : string, name +:+ "=" +:+ value ∈ args).
Proof.
  rewrite parsePlaceholders_lookup, last_binding_is_Some. split.
  - intros (p & value & Hp & [-> H]%cut_iff). eauto.
  - intros (H & value & Hp). exists (name +:+ "=" +:+ value), value.
    split; [done|]. by apply cut_iff.
Qed.

(** X19. Every argument that holds an [=] is accepted, and the entry it
    makes determines it: the argument is the name, [=] and the value put
    together again, and no other way of cutting it at an [=] leaves a name
    free of [=]. *)
Theorem accepted_argument_is_recovered (opt : options) (p : string) :
  Spec.occurs "=" p ->
  exists name value : string,
    parsePlaceholder opt p =
      set_placeholders (<[name := value]> (placeholders opt)) opt /\
    p = name +:+ "=" +:+ value /\
    ~ Spec.occurs "=" name /\
    (forall name' value' : string,
       p = name' +:+ "=" +:+ value' -> ~ Spec.occurs "=" name' ->
       name' = name /\ value' = value).
Proof.
  intros H. rewrite parsePlaceholder_cut.
  destruct (Spec.cut p) as [[name value]|] eqn:C.
  - exists name, value. pose proof C as [E Hn]%cut_iff.
    split; [done|]. split; [done|]. split; [done|].
    intros name' value' E' Hn'.
    assert (C' : Spec.cut p = Some (name', value')) by by apply cut_iff.
    rewrite C in C'. by simplify_eq.
  - destruct H as (a & b & ->). apply cut_None in C.
    by eapply find_None in C.
Qed.

Lemma accepted_argument_is_recovered_witness :
  exists name value : string,
    parsePlaceholder (parsed_flags "api.wadl" "" true []) "q=a=b" =
      set_placeholders
        (<[name := value]> (placeholders (parsed_flags "api.wadl" "" true [])))
        (parsed_flags "api.wadl" "" true []) /\
    "q=a=b" = name +:+ "=" +:+ value /\
    ~ Spec.occurs "=" name /\
    (forall name' value' : string,
       "q=a=b" = name' +:+ "=" +:+ value' -> ~ Spec.occurs "=" name' ->
       name' = name /\ value' = value).
Proof.
  apply (accepted_argument_is_recovered (parsed_flags "api.wadl" "" true [])
           "q=a=b").
  apply Contains_spec. reflexivity.
Defined.

(** X20. [Set] never refuses a value and appends it: after the calls made
    for the [-p] occurrences of a command line, the slice holds the values
    in their order, malformed ones included, so that the value
    [parsePlaceholders] gives a name is the one of the last [-p] that binds
    it. *)
Theorem placeholder_flags_accumulate (p values : list string) :
  placeholderFlag_Sets p values = (p ++ values, None) /\
  (forall (i r : string) (b : bool) (name : string),
     placeholders
       (parsePlaceholders
          (parsed_flags i r b (placeholderFlag_Sets [] values).1)) !! name =
     Spec.last_binding name values).
Proof.
  assert (E : forall q, placeholderFlag_Sets q values = (q ++ values, None)).
  { induction values as [|v values IH]; intros q; simpl.
    - by rewrite List.app_nil_r.
    - rewrite IH. by rewrite <- List.app_assoc. }
  split; [apply E|]. intros i r b name.
  rewrite E. simpl. apply parsePlaceholders_lookup.
Qed.

(** ** The join the collapse rule is made for *)

Section Join.

Implicit Types (s t a b old pre q r : string).

Lemma prefix_app_mono old a t :
  String.prefix old a = true -> String.prefix old (a +:+ t) = true.
Proof.
  intros [b ->]%prefix_spec. rewrite app_assoc. apply prefix_app.
Qed.

Lemma prefix_app_long old a t :
  (String.length old <= String.length a)%nat ->
  String.prefix old (a +:+ t) = String.prefix old a.
Proof.
  revert a. induction old as [|c old IH]; intros a H.
  - by rewrite !prefix_nil.
  - destruct a as [|d a]; simpl in H; [lia|].
    rewrite app_cons, !prefix_cons. f_equal. apply IH. lia.
Qed.

(** What a search finds is still found first when text is appended. *)
Lemma find_app_Some old a t x :
  find old a = Some x -> find old (a +:+ t) = Some x.
Proof.
  revert x. induction a as [|c a IH]; intros x.
  - unfold find at 1. destruct (String.prefix old EmptyString) eqn:E; [|done].
    intros [= <-]. destruct old; [|done].
    rewrite app_nil_l. destruct t; unfold find; by rewrite prefix_nil.
  - intros F. pose proof (find_bound _ _ _ F) as Hb. revert F.
    rewrite app_cons. simpl. rewrite <- app_cons.
    destruct (String.prefix old (String c a)) eqn:E.
    + intros [= <-]. by rewrite prefix_app_mono.
    + destruct (find old a) as [y|] eqn:Fa; simpl; [|done]. intros [= <-].
      rewrite prefix_app_long, E by lia. by rewrite (IH y).
Qed.

Lemma find_separator_at_join q r :
  find "//" q = None -> (forall a, q <> a +:+ "/") ->
  find "//" (q +:+ "//" +:+ r) = Some (String.length q).
Proof.
  induction q as [|c q IH]; intros F Hend.
  - rewrite app_nil_l. change ("//" +:+ r) with (String "/" (String "/" r)).
    simpl. by rewrite !prefix_cons, prefix_nil.
  - revert F. rewrite app_cons. simpl.
    destruct (String.prefix "//" (String c q)) eqn:E; [done|].
    destruct (find "//" q) as [y|] eqn:Fq; simpl; [done|]. intros _.
    assert (String.prefix "//" (String c (q +:+ "//" +:+ r)) = false) as ->.
    { rewrite prefix_cons in E |- *.
      destruct (Ascii.eqb_spec "/"%char c) as [<-|]; [|done]. simpl in *.
      destruct q as [|d q]; [by destruct (Hend EmptyString)|].
      rewrite app_cons. rewrite prefix_cons, prefix_nil in E |- *. done. }
    rewrite IH; [done..|]. intros a ->. by apply (Hend (String c a)).
Qed.

Lemma single_occurrence pre j :
  Spec.occurrences "//" O O pre = [j] ->
  find "//" pre = Some j /\ find "//" (drop (j + 2) pre) = None.
Proof.
  assert (Hne : "//" <> EmptyString) by done.
  rewrite (occurrences_find _ Hne).
  destruct (find "//" pre) as [x|]; [|done]. simpl.
  rewrite (occurrences_find _ Hne).
  destruct (find "//" (drop (x + 2) pre)) as [y|] eqn:F2; [done|].
  by intros [= <-].
Qed.

(** The second separator of a base with one [//], extended by a slash, and
    a path that starts with a slash is the pair of slashes at the join. *)
Lemma join_is_second_separator pre r j :
  Spec.occurrences "//" O O pre = [j] ->
  (forall a, pre <> a +:+ "/") ->
  Spec.second_separator (pre +:+ "//" +:+ r) (String.length pre).
Proof.
  intros [F1 F2]%single_occurrence Hend.
  pose proof (find_bound _ _ _ F1) as Hb. simpl in Hb.
  exists j. split.
  - apply (find_first_from _ _ O). rewrite drop_0. by apply find_app_Some.
  - change (String.length Spec.separator) with 2%nat.
    replace (String.length pre)
      with (j + 2 + String.length (drop (j + 2) pre))%nat
      by (rewrite length_drop; lia).
    apply find_first_from. rewrite drop_app_le by lia.
    apply find_separator_at_join; [done|].
    intros a E. apply (Hend (take (j + 2) pre +:+ a)).
    by rewrite app_assoc, <- E, take_drop.
Qed.

(** The last byte of a string that ends with [c], in the form that
    computes. *)
Lemma last_byte a c :
  String.get (String.length (a +:+ String c EmptyString) - 1)
    (a +:+ String c EmptyString) = Some c.
Proof.
  induction a as [|d a IH]; [done|].
  rewrite app_cons. simpl. rewrite Nat.sub_0_r.
  rewrite length_app in IH |- *. simpl in IH |- *.
  replace (String.length a + 1)%nat with (S (String.length a)) by lia.
  by replace (String.length a + 1 - 1)%nat with (String.length a) in IH by lia.
Qed.

End Join.

(** X21. The case the collapse rule is made for: when the base URL ends in
    a slash, holds no placeholder and has a single [//] before that slash
    (the one after the scheme), and the path starts with a slash, the line
    printed is the base and the templated path joined by one slash. *)
Theorem base_and_path_joined_by_one_slash
  (opt : options) (pre rest : string) (j : nat) (σ : Streams) :
  baseURL opt = pre +:+ "/" ->
  ~ has_byte Regexp.lbrace pre ->
  Spec.occurrences "//" O O pre = [j] ->
  (forall a : string, pre <> a +:+ "/") ->
  len (replacePlaceholders opt (baseURL opt +:+ "/" +:+ rest)) <= max_int ->
  emit_path opt ("/" +:+ rest) σ =
  Print_stdout (pre +:+ "/" +:+ replacePlaceholders opt rest +:+ newline) σ.
Proof.
  intros Eb Hbr Hocc Hend Hfit.
  assert (Hne : baseURL opt <> EmptyString).
  { rewrite Eb. by destruct pre. }
  assert (E : replacePlaceholders opt (baseURL opt +:+ "/" +:+ rest) =
              pre +:+ "//" +:+ replacePlaceholders opt rest).
  { rewrite Eb.
    replace ((pre +:+ "/") +:+ "/" +:+ rest) with ((pre +:+ "//") +:+ rest)
      by by rewrite !app_assoc.
    unfold replacePlaceholders, Regexp.ReplaceAllStringFunc.
    rewrite replaceAll_keeps_prefix; [by rewrite app_assoc|].
    intros (a & b & E). apply Hbr.
    apply has_byte_In. assert (H : has_byte Regexp.lbrace (pre +:+ "//"))
      by by exists a, b.
    apply has_byte_In in H. revert H. clear.
    induction pre as [|c pre IH]; simpl.
    - intros [H|[H|[]]]; discriminate.
    - intros [H|H]; auto. }
  rewrite emit_path_base by done. rewrite E.
  destruct (collapse_second_spec
              (pre +:+ "//" +:+ replacePlaceholders opt rest)) as [H _].
  rewrite (H (String.length pre))
    by by apply (join_is_second_separator _ _ j).
  rewrite take_app_length.
  replace (String.length pre + 2)%nat
    with (String.length (pre +:+ "//")) by (rewrite length_app; simpl; lia).
  rewrite <- (app_assoc pre "//"), drop_app_length.
  by rewrite !app_assoc.
Qed.

Lemma base_and_path_joined_by_one_slash_witness :
  let opt :=
    set_baseURL "http://h.tld/api/"
      (parsePlaceholders (parsed_flags "api.wadl" "" true ["id=//7"])) in
  emit_path opt ("/" +:+ "users/{id}") Sample.no_output =
  Print_stdout ("http://h.tld/api" +:+ "/" +:+ replacePlaceholders opt "users/{id}"
                  +:+ newline) Sample.no_output.
Proof.
  intros opt.
  apply (base_and_path_joined_by_one_slash opt "http://h.tld/api"
           "users/{id}" 5 Sample.no_output).
  - reflexivity.
  - rewrite has_byte_In. vm_compute. intuition discriminate.
  - reflexivity.
  - intros a E. pose proof (last_byte a "/") as H.
    rewrite <- E in H. vm_compute in H. discriminate.
  - vm_compute. discriminate.
Defined.

Lemma prefix_within old s i m :
  (i + String.length old <= m)%nat -> (m <= String.length s)%nat ->
  String.prefix old (drop i s) = String.prefix old (drop i (take m s)).
Proof.
  intros Hi Hm. rewrite <- (take_drop m s) at 1.
  rewrite drop_app_le by (rewrite length_take; lia).
  apply prefix_app_long. rewrite length_drop, length_take. lia.
Qed.

Lemma collapse_second_keeps_first s j :
  Spec.first_from Spec.separator s O j ->
  take (j + 2) (Spec.collapse_second s) = take (j + 2) s.
Proof.
  intros Hj. pose proof (second_of_occurrences s) as H.
  destruct (collapse_second_spec s) as [Hyes Hno].
  destruct (Spec.occurrences Spec.separator O O s) as [|j0 [|k rest]];
    [by rewrite Hno..|].
  rewrite (Hyes k H). destruct H as (j' & Hj' & Hge & Hk & _).
  rewrite <- (first_from_unique _ _ _ _ _ Hj Hj') in Hge. simpl in Hge.
  apply prefix_length in Hk. rewrite length_drop in Hk. simpl in Hk.
  rewrite take_app_le by (rewrite length_take; lia).
  rewrite take_take. f_equal. lia.
Qed.

(** X22. The collapse never touches the first [//] of the string it is
    given (the one after the scheme of a base URL): the result agrees with
    the string up to and including its first [//]. *)
Theorem first_separator_is_never_collapsed (s r : string) (j : nat) :
  len s <= max_int ->
  Spec.first_from "//" s O j ->
  replaceNth s "//" "/" 2 = Ret r ->
  take (j + 2) r = take (j + 2) s /\ Spec.first_from "//" r O j.
Proof.
  intros Hfit Hj. rewrite replaceNth_collapse by done. intros [= <-].
  pose proof (collapse_second_keeps_first s j Hj) as E.
  split; [done|].
  destruct Hj as (_ & Ho & Hmin). unfold Spec.occurs_at in *.
  assert (Hlen : (j + 2 <= String.length s)%nat).
  { apply prefix_length in Ho. rewrite length_drop in Ho. simpl in Ho. lia. }
  assert (Hlen' : (j + 2 <= String.length (Spec.collapse_second s))%nat).
  { assert (L : String.length (take (j + 2) (Spec.collapse_second s))
                = (j + 2)%nat) by (rewrite E, length_take; lia).
    rewrite length_take in L. lia. }
  assert (Hsame : forall i, (i <= j)%nat ->
             String.prefix "//" (drop i (Spec.collapse_second s)) =
             String.prefix "//" (drop i s)).
  { intros i Hi.
    rewrite (prefix_within _ (Spec.collapse_second s) i (j + 2))
      by (simpl; lia).
    rewrite (prefix_within _ s i (j + 2)) by (simpl; lia).
    by rewrite E. }
  split; [lia|]. split.
  - unfold Spec.occurs_at. by rewrite Hsame.
  - intros i' Hi'. unfold Spec.occurs_at. rewrite Hsame by lia.
    apply Hmin. lia.
Qed.

Lemma first_separator_is_never_collapsed_witness :
  take (5 + 2) "http://h.tld/a//b" = take (5 + 2) "http://h.tld//a//b" /\
  Spec.first_from "//" "http://h.tld/a//b" O 5.
Proof.
  apply (first_separator_is_never_collapsed "http://h.tld//a//b"
           "http://h.tld/a//b" 5).
  - vm_compute. discriminate.
  - split; [lia|]. split; [reflexivity|].
    intros i' Hi'. unfold Spec.occurs_at.
    assert (i' = 0 \/ i' = 1 \/ i' = 2 \/ i' = 3 \/ i' = 4)%nat
      as [->|[->|[->|[->| ->]]]] by lia; vm_compute; discriminate.
  - reflexivity.
Defined.
